(** * imv: the control program [main.c] and the components it drives

    A shallow embedding of [src/main.c] (option parsing, start-up, the
    control loop) together with the Navigator, AnimatedImage and Viewport
    components it calls.  [main.c] is embedded from its source; the three
    components live in other translation units and are modelled from the
    specification (each such definition says so).

    Platform conventions used throughout: [int] is 32 bits and [long] is
    64 bits (LP64), plain [char] is signed, the C library is glibc (GNU
    [getopt] with argument permutation, [printf] rendering a null [%s]
    argument as [(null)]), [double] is IEEE 754 binary64, rounded to
    nearest and evaluated without excess precision. *)

From Stdlib Require Import Floats Uint63.
From Stdlib Require Import ZArith QArith Qminmax List String Ascii Bool Lia.
From Stdlib Require Import DecimalString.
Import ListNotations.

Local Open Scope string_scope.
Local Open Scope list_scope.
Local Open Scope Z_scope.

(** ** C integers and strings *)

Module C.

Definition INT_MIN : Z := - 2 ^ 31.
Definition INT_MAX : Z := 2 ^ 31 - 1.
Definition LONG_MIN : Z := - 2 ^ 63.
Definition LONG_MAX : Z := 2 ^ 63 - 1.

(** Conversion of a wider integer to [int]: reduction modulo 2^32 into
    the signed range (what gcc and clang do). *)
Definition to_int (z : Z) : Z := (z + 2 ^ 31) mod 2 ^ 32 - 2 ^ 31.

Definition nl : string := String (ascii_of_nat 10) "".

(** [%i] of printf. *)
Definition fmt_int (z : Z) : string := NilZero.string_of_int (Z.to_int z).

(** [%c] of printf. *)
Definition fmt_char (c : ascii) : string := String c "".

(** [%s] of printf; glibc prints a null pointer as "(null)". *)
Definition fmt_str (s : option string) : string :=
  match s with Some s => s | None => "(null)" end.

(** [snprintf(buf, size, ...)]: at most [size - 1] characters are kept. *)
Definition snprintf (size : nat) (s : string) : string :=
  substring 0 (size - 1) s.

Definition isspace (c : ascii) : bool :=
  let n := Z.of_N (N_of_ascii c) in
  (n =? 32) || ((9 <=? n) && (n <=? 13)).

Definition digit_val (c : ascii) : option Z :=
  let n := Z.of_N (N_of_ascii c) in
  if (48 <=? n) && (n <=? 57) then Some (n - 48)
  else if (97 <=? n) && (n <=? 122) then Some (n - 87)
  else if (65 <=? n) && (n <=? 90) then Some (n - 55)
  else None.

Definition is_digit (base : Z) (c : ascii) : bool :=
  match digit_val c with Some d => d <? base | None => false end.

Fixpoint skip_spaces (s : string) : string :=
  match s with
  | String c s' => if isspace c then skip_spaces s' else s
  | EmptyString => s
  end.

(** Longest run of digits of [base], accumulated from the left. *)
Fixpoint digits (base : Z) (s : string) (acc : Z) : Z * string :=
  match s with
  | String c s' =>
      match digit_val c with
      | Some d => if d <? base then digits base s' (acc * base + d)
                  else (acc, s)
      | None => (acc, s)
      end
  | EmptyString => (acc, s)
  end.

Definition clamp_long (z : Z) : Z :=
  if z <? LONG_MIN then LONG_MIN
  else if LONG_MAX <? z then LONG_MAX else z.

(** [strtol(s, &end, 0)]: the value and the unparsed rest.  Base 0 takes
    a leading "0x"/"0X" as hexadecimal and a leading "0" as octal; when
    no digit is found nothing is consumed and the value is 0; a value
    out of range saturates. *)
Definition strtol0 (s : string) : Z * string :=
  let s1 := skip_spaces s in
  let '(neg, s2) :=
    match s1 with
    | String "-" r => (true, r)
    | String "+" r => (false, r)
    | _ => (false, s1)
    end in
  let '(base, s3) :=
    match s2 with
    | String "0" (String x (String h r)) =>
        if (Ascii.eqb x "x" || Ascii.eqb x "X") && is_digit 16 h
        then (16, String h r) else (8, s2)
    | String "0" _ => (8, s2)
    | _ => (10, s2)
    end in
  match s3 with
  | String c _ =>
      if is_digit base c then
        let '(v, rest) := digits base s3 0 in
        (clamp_long (if neg then - v else v), rest)
      else (0, s)
  | EmptyString => (0, s)
  end.

End C.

(** ** Observable effects and results

    Everything the program does to the outside world is recorded, in
    order, as a list of events.  A computation either goes on with a
    value, leaves the process through [exit], or reaches behaviour C
    leaves undefined ([puts] of a null pointer, a read before the start
    of a buffer, a [memset] past the end of one). *)

Record bitmap := mk_bitmap {
  bmp_width : Z;
  bmp_height : Z;
  bmp_handle : nat
}.

Inductive event :=
| EStdout (s : string)
| EStderr (s : string)
| ESetTitle (s : string)
| ESetFullscreen (on : bool)
| ELoad (path : string) (ok : bool)
| EPlay (dt : float)
| ETextureSetImage (b : option bitmap)
| ERenderClear (r g b : Z)
| ERenderCopy (x y w h : Z)
| ETextureDraw (x y : Q) (scale : Q)
| ERenderPresent
| EDelay (ms : Z).

Inductive run (A : Type) :=
| Ok (a : A)
| Exit (code : Z)
| Undefined.
Arguments Ok {A} a.
Arguments Exit {A} code.
Arguments Undefined {A}.

Definition M (A : Type) : Type := list event * run A.

Definition ret {A} (a : A) : M A := ([], Ok a).
Definition emit (e : event) : M unit := ([e], Ok tt).
Definition exit {A} (code : Z) : M A := ([], Exit code).
Definition undefined {A} : M A := ([], Undefined).

Definition bind {A B} (m : M A) (f : A -> M B) : M B :=
  match m with
  | (t, Ok a) => let '(t', r) := f a in (t ++ t', r)
  | (t, Exit c) => (t, Exit c)
  | (t, Undefined) => (t, Undefined)
  end.

Notation "x <- m ;; k" := (bind m (fun x => k))
  (at level 61, m at next level, right associativity).
Notation "m ;;; k" := (bind m (fun _ => k))
  (at level 61, right associativity).

Definition trace {A} (m : M A) : list event := fst m.
Definition result {A} (m : M A) : run A := snd m.

Definition fprintf_stderr (s : string) : M unit := emit (EStderr s).
Definition fprintf_stdout (s : string) : M unit := emit (EStdout s).

(** ** getopt

    GNU [getopt] with [opterr = 0] on the option string "firahn:".  The
    successive return values of the calls made by the loop of
    [parse_args] are produced as a list, the operands left at
    [argv[optind..]] beside it: an element "--" ends the options, an
    element that is "-" or does not start with '-' is an operand (and
    scanning goes on behind it), any other element is a cluster of option
    characters.  'n' takes the rest of its cluster, or else the next
    element, as [optarg]; a character that is not an option, or an 'n'
    with nothing behind it, gives '?' with the character in [optopt]. *)

Record getopt_ret := mk_getopt_ret {
  g_o : ascii;
  g_optarg : string;
  g_optopt : ascii
}.

Definition optstring : string := "firahn:".

Inductive optkind := NoSuchOpt | Flag | WithArg.

Fixpoint lookup_opt (c : ascii) (os : string) : optkind :=
  match os with
  | String o (String ":" os') =>
      if Ascii.eqb c o then WithArg else lookup_opt c os'
  | String o os' => if Ascii.eqb c o then Flag else lookup_opt c os'
  | EmptyString => NoSuchOpt
  end.

Definition opt_kind (c : ascii) : optkind :=
  if Ascii.eqb c ":" then NoSuchOpt else lookup_opt c optstring.

Definition got (c : ascii) (arg : string) : getopt_ret :=
  mk_getopt_ret c arg c.
Definition unknown (c : ascii) : getopt_ret :=
  mk_getopt_ret "?" "" c.

(** One cluster (the characters behind the leading '-'); [next] is the
    following element of argv, if any.  The boolean tells whether that
    element was taken as an option argument. *)
Fixpoint scan_cluster (cs : string) (next : option string)
  : list getopt_ret * bool :=
  match cs with
  | EmptyString => ([], false)
  | String c cs' =>
      match opt_kind c with
      | NoSuchOpt =>
          let '(rs, took) := scan_cluster cs' next in (unknown c :: rs, took)
      | Flag =>
          let '(rs, took) := scan_cluster cs' next in (got c "" :: rs, took)
      | WithArg =>
          match cs', next with
          | EmptyString, Some a => ([got c a], true)
          | EmptyString, None => ([unknown c], false)
          | _, _ => ([got c cs'], false)
          end
      end
  end.

Definition is_option (a : string) : bool :=
  match a with
  | String "-" (String _ _) => true
  | _ => false
  end.

Fixpoint getopt_scan (args : list string) : list getopt_ret * list string :=
  match args with
  | [] => ([], [])
  | a :: rest =>
      if String.eqb a "--" then ([], rest)
      else if is_option a then
        let '(rs, took) :=
          scan_cluster (substring 1 (String.length a - 1) a) (hd_error rest) in
        match took, rest with
        | true, _ :: rest' =>
            let '(rs', ops) := getopt_scan rest' in (rs ++ rs', ops)
        | _, _ =>
            let '(rs', ops) := getopt_scan rest in (rs ++ rs', ops)
        end
      else
        let '(rs, ops) := getopt_scan rest in (rs, a :: ops)
  end.

(** ** The global options of main.c *)

Record options := mk_options {
  fullscreen : Z;
  stdin : Z;
  recursive : Z;
  actual : Z;
  start_at : Z;
  solid_bg : Z;
  bg_r : Z;
  bg_g : Z;
  bg_b : Z
}.

Definition g_options : options := mk_options 0 0 0 0 0 0 0 0 0.

Definition set_fullscreen (o : options) (v : Z) : options :=
  mk_options v (stdin o) (recursive o) (actual o) (start_at o)
             (solid_bg o) (bg_r o) (bg_g o) (bg_b o).
Definition set_stdin (o : options) (v : Z) : options :=
  mk_options (fullscreen o) v (recursive o) (actual o) (start_at o)
             (solid_bg o) (bg_r o) (bg_g o) (bg_b o).
Definition set_recursive (o : options) (v : Z) : options :=
  mk_options (fullscreen o) (stdin o) v (actual o) (start_at o)
             (solid_bg o) (bg_r o) (bg_g o) (bg_b o).
Definition set_actual (o : options) (v : Z) : options :=
  mk_options (fullscreen o) (stdin o) (recursive o) v (start_at o)
             (solid_bg o) (bg_r o) (bg_g o) (bg_b o).
Definition set_start_at (o : options) (v : Z) : options :=
  mk_options (fullscreen o) (stdin o) (recursive o) (actual o) v
             (solid_bg o) (bg_r o) (bg_g o) (bg_b o).

(** A C condition [if (v)] on an int. *)
Definition truthy (v : Z) : bool := negb (v =? 0).

(** ** Navigator *)

Record imv_navigator := mk_navigator {
  paths : list string;
  cur_path : Z;
  changed : bool
}.

Definition num_paths (nav : imv_navigator) : Z :=
  Z.of_nat (List.length (paths nav)).

(** Modelled from the spec: navigator.c is not among the sources.  The
    value of [cur_path] while the list is empty (the spec's sentinel). *)
Definition no_path : Z := -1.

(** Modelled from the spec: navigator.c is not among the sources.  An
    empty path list, the cursor at the sentinel, nothing to report. *)
Definition imv_init_navigator : imv_navigator := mk_navigator [] no_path false.

(** Modelled from the spec: navigator.c is not among the sources.
    "appends p if not already present; if this is the first path added,
    sets current_index to 0 and marks changed". *)
Definition imv_navigator_add_path (nav : imv_navigator) (p : string)
  : imv_navigator :=
  if in_dec string_dec p (paths nav) then nav
  else
    match paths nav with
    | [] => mk_navigator [p] 0 true
    | _ => mk_navigator (paths nav ++ [p]) (cur_path nav) (changed nav)
    end.

(** Modelled from the spec: navigator.c is not among the sources.
    "advances current_index by 1, wrapping to 0 past the end; no-op if
    list empty; marks changed on success". *)
Definition imv_navigator_next_path (nav : imv_navigator) : imv_navigator :=
  match paths nav with
  | [] => nav
  | _ =>
      let c := cur_path nav + 1 in
      mk_navigator (paths nav) (if c <? num_paths nav then c else 0) true
  end.

(** Modelled from the spec: navigator.c is not among the sources.
    "symmetric, wrapping to the last index". *)
Definition imv_navigator_prev_path (nav : imv_navigator) : imv_navigator :=
  match paths nav with
  | [] => nav
  | _ =>
      let c := cur_path nav - 1 in
      mk_navigator (paths nav) (if c <? 0 then num_paths nav - 1 else c) true
  end.

(** Modelled from the spec: navigator.c is not among the sources.
    "sets current_index to n clamped into [0, len); marks changed"; on an
    empty list the cursor stays at the sentinel. *)
Definition imv_navigator_set_path (nav : imv_navigator) (n : Z)
  : imv_navigator :=
  match paths nav with
  | [] => mk_navigator [] no_path true
  | _ =>
      mk_navigator (paths nav) (Z.max 0 (Z.min n (num_paths nav - 1))) true
  end.

Definition remove_at {A} (i : nat) (l : list A) : list A :=
  firstn i l ++ skipn (S i) l.

(** Modelled from the spec: navigator.c is not among the sources.
    "deletes the entry at current_index.  If the list becomes empty,
    cursor becomes sentinel.  Otherwise the cursor stays at the same
    numeric index unless that index is now out of range, in which case it
    wraps to 0.  Marks changed." *)
Definition imv_navigator_remove_current_path (nav : imv_navigator)
  : imv_navigator :=
  let ps := remove_at (Z.to_nat (cur_path nav)) (paths nav) in
  match ps with
  | [] => mk_navigator [] no_path true
  | _ =>
      mk_navigator ps
        (if cur_path nav <? Z.of_nat (List.length ps) then cur_path nav else 0)
        true
  end.

(** Modelled from the spec: navigator.c is not among the sources.
    "returns the path at current_index, or none if empty". *)
Definition imv_navigator_get_current_path (nav : imv_navigator)
  : option string :=
  match paths nav with
  | [] => None
  | _ => nth_error (paths nav) (Z.to_nat (cur_path nav))
  end.

(** Modelled from the spec: navigator.c is not among the sources.
    "returns and clears the edge-triggered changed flag". *)
Definition imv_navigator_has_changed (nav : imv_navigator)
  : bool * imv_navigator :=
  (changed nav, mk_navigator (paths nav) (cur_path nav) false).

(** The spec's invariant of the cursor. *)
Definition nav_wf (nav : imv_navigator) : Prop :=
  (paths nav = [] /\ cur_path nav = no_path) \/
  (0 <= cur_path nav < num_paths nav).

(** ** AnimatedImage *)

Definition frame : Type := bitmap * Q.

Record imv_image := mk_image {
  source_path : option string;
  frames : list frame;
  frame_index : nat;
  frame_time_accum : Q;
  width : Z;
  height : Z;
  img_changed : bool
}.

(** Modelled from the spec: image.c is not among the sources.  No image
    decoded yet. *)
Definition imv_init_image : imv_image :=
  mk_image None [] 0 0%Q 0 0 false.

(** The bitmap on display ([img.cur_bmp] of main.c). *)
Definition cur_bmp (img : imv_image) : option bitmap :=
  option_map fst (nth_error (frames img) (frame_index img)).

(** Modelled from the spec: image.c is not among the sources.  "manually
    advances frame_index by one (wrapping), sets changed". *)
Definition imv_image_load_next_frame (img : imv_image) : imv_image :=
  mk_image (source_path img) (frames img)
    (match frames img with
     | [] => frame_index img
     | _ => Nat.modulo (S (frame_index img)) (List.length (frames img))
     end)
    (frame_time_accum img) (width img) (height img) true.

(** Modelled from the spec: image.c is not among the sources.  Reads and
    clears the changed flag. *)
Definition imv_image_has_changed (img : imv_image) : bool * imv_image :=
  (img_changed img,
   mk_image (source_path img) (frames img) (frame_index img)
     (frame_time_accum img) (width img) (height img) false).

(** ** Viewport *)

Record imv_viewport := mk_viewport {
  window_w : Z;
  window_h : Z;
  x : Q;
  y : Q;
  scale : Q;
  playing : bool;
  view_fullscreen : bool;
  redraw : bool
}.

Inductive zoom_source := KBD | MOUSE.

(** Modelled from the spec: viewport.c is not among the sources.  The
    offset that puts the scaled image in the middle of the window. *)
Definition centered (ww wh : Z) (img : imv_image) (sc : Q) : Q * Q :=
  (((inject_Z ww - inject_Z (width img) * sc) / 2)%Q,
   ((inject_Z wh - inject_Z (height img) * sc) / 2)%Q).

(** Modelled from the spec: viewport.c is not among the sources.
    "recomputes offset so the image is centered in window_size without
    changing scale". *)
Definition imv_viewport_center (v : imv_viewport) (img : imv_image)
  : imv_viewport :=
  let '(cx, cy) := centered (window_w v) (window_h v) img (scale v) in
  mk_viewport (window_w v) (window_h v) cx cy (scale v)
    (playing v) (view_fullscreen v) (redraw v).

(** Modelled from the spec: viewport.c is not among the sources.
    "scale = min(window_w/img_w, window_h/img_h) ... Recenters offset.
    Sets redraw_needed." *)
Definition imv_viewport_scale_to_window (v : imv_viewport) (img : imv_image)
  : imv_viewport :=
  let sc := Qmin (inject_Z (window_w v) / inject_Z (width img))
                 (inject_Z (window_h v) / inject_Z (height img)) in
  let '(cx, cy) := centered (window_w v) (window_h v) img sc in
  mk_viewport (window_w v) (window_h v) cx cy sc
    (playing v) (view_fullscreen v) true.

(** Modelled from the spec: viewport.c is not among the sources.  "sets
    scale = 1, recenters.  Sets redraw_needed." *)
Definition imv_viewport_scale_to_actual (v : imv_viewport) (img : imv_image)
  : imv_viewport :=
  let '(cx, cy) := centered (window_w v) (window_h v) img 1%Q in
  mk_viewport (window_w v) (window_h v) cx cy 1%Q
    (playing v) (view_fullscreen v) true.

(** Modelled from the spec: viewport.c is not among the sources.  "adds
    (dx, dy) to offset directly (pan).  Sets redraw_needed." *)
Definition imv_viewport_move (v : imv_viewport) (dx dy : Z) : imv_viewport :=
  mk_viewport (window_w v) (window_h v)
    (x v + inject_Z dx)%Q (y v + inject_Z dy)%Q (scale v)
    (playing v) (view_fullscreen v) true.

(** Modelled from the spec: viewport.c is not among the sources.
    "refreshes window_size from the collaborator, then re-centers ...
    Sets redraw_needed."  [ww], [wh] is the size the window reports. *)
Definition imv_viewport_updated (v : imv_viewport) (img : imv_image)
  (ww wh : Z) : imv_viewport :=
  let '(cx, cy) := centered ww wh img (scale v) in
  mk_viewport ww wh cx cy (scale v) (playing v) (view_fullscreen v) true.

(** Modelled from the spec: viewport.c is not among the sources.  "flips
    fullscreen and instructs the window collaborator to match". *)
Definition imv_viewport_toggle_fullscreen (v : imv_viewport)
  : M imv_viewport :=
  emit (ESetFullscreen (negb (view_fullscreen v))) ;;;
  ret (mk_viewport (window_w v) (window_h v) (x v) (y v) (scale v)
         (playing v) (negb (view_fullscreen v)) (redraw v)).

(** Modelled from the spec: viewport.c is not among the sources.  "flips
    playing". *)
Definition imv_viewport_toggle_playing (v : imv_viewport) (img : imv_image)
  : imv_viewport :=
  mk_viewport (window_w v) (window_h v) (x v) (y v) (scale v)
    (negb (playing v)) (view_fullscreen v) (redraw v).

(** Modelled from the spec: viewport.c is not among the sources.  "sets
    redraw_needed". *)
Definition imv_viewport_set_redraw (v : imv_viewport) : imv_viewport :=
  mk_viewport (window_w v) (window_h v) (x v) (y v) (scale v)
    (playing v) (view_fullscreen v) true.

(** [view.redraw = 0] in main.c. *)
Definition clear_redraw (v : imv_viewport) : imv_viewport :=
  mk_viewport (window_w v) (window_h v) (x v) (y v) (scale v)
    (playing v) (view_fullscreen v) false.

(** The window title is set through the viewport's window. *)
Definition imv_viewport_set_title (t : string) : M unit := emit (ESetTitle t).

(** ** SDL: the events main.c looks at, and what the platform reports *)

Inductive keycode :=
| SDLK_q | SDLK_LEFTBRACKET | SDLK_LEFT | SDLK_RIGHTBRACKET | SDLK_RIGHT
| SDLK_EQUALS | SDLK_i | SDLK_UP | SDLK_MINUS | SDLK_o | SDLK_DOWN
| SDLK_a | SDLK_r | SDLK_c | SDLK_j | SDLK_k | SDLK_h | SDLK_l
| SDLK_x | SDLK_f | SDLK_PERIOD | SDLK_SPACE | SDLK_p
| SDLK_other (code : Z).

Inductive SDL_Event :=
| SDL_QUIT
| SDL_KEYDOWN (sym : keycode)
| SDL_MOUSEWHEEL (wheel_y : Z)
| SDL_MOUSEMOTION (motion_state xrel yrel : Z)
| SDL_WINDOWEVENT
| SDL_OTHEREVENT.

Definition SDL_BUTTON_LMASK : Z := 1.

(** What the platform answers during start-up. *)
Record platform := mk_platform {
  sdl_init_error : option string;   (* SDL_Init failed with this message *)
  max_texture_width : Z;            (* SDL_GetRendererInfo *)
  max_texture_height : Z;
  ticks0 : Z                        (* SDL_GetTicks before the loop *)
}.

(** What the platform answers during one iteration of the control loop. *)
Record frame_env := mk_frame_env {
  pending : list SDL_Event;         (* the event queue, oldest first *)
  ticks_a : Z;                      (* first SDL_GetTicks of the iteration *)
  ticks_b : Z;                      (* second SDL_GetTicks *)
  win_w : Z;                        (* SDL_GetWindowSize *)
  win_h : Z
}.

(** [SDL_GetTicks() / 1000.0]: the Uint32 tick count converted to
    double (exactly) and divided by the double 1000. *)
Definition seconds (ticks : Z) : float :=
  PrimFloat.div (PrimFloat.of_uint63 (Uint63.of_Z ticks))
                (PrimFloat.of_uint63 (Uint63.of_Z 1000)).

(** ** The state main.c keeps across the control loop *)

Record state := mk_state {
  st_nav : imv_navigator;
  st_img : imv_image;
  st_tex : option bitmap;
  st_view : imv_viewport;
  st_opts : options;
  st_last_time : float;
  st_chequered : Z * Z
}.

Definition with_nav (st : state) (n : imv_navigator) : state :=
  mk_state n (st_img st) (st_tex st) (st_view st) (st_opts st)
           (st_last_time st) (st_chequered st).
Definition with_img (st : state) (i : imv_image) : state :=
  mk_state (st_nav st) i (st_tex st) (st_view st) (st_opts st)
           (st_last_time st) (st_chequered st).
Definition with_tex (st : state) (t : option bitmap) : state :=
  mk_state (st_nav st) (st_img st) t (st_view st) (st_opts st)
           (st_last_time st) (st_chequered st).
Definition with_view (st : state) (v : imv_viewport) : state :=
  mk_state (st_nav st) (st_img st) (st_tex st) v (st_opts st)
           (st_last_time st) (st_chequered st).
Definition with_last_time (st : state) (t : float) : state :=
  mk_state (st_nav st) (st_img st) (st_tex st) (st_view st) (st_opts st)
           t (st_chequered st).

(** The result of one pass through the body of [while(!quit)]. *)
Inductive iteration := Continue (st : state) | Quit (st : state).

(** ** A small world to run the program in *)

Module Sample.

(** Only "b.png" decodes: one frame of 640x480. *)
Definition decode (p : string) : option (frame * list frame) :=
  if String.eqb p "b.png"
  then Some ((mk_bitmap 640 480 1, (1 # 10)%Q), []) else None.

Definition list_files (p : string) : list string := [p].
Definition play (img : imv_image) (dt : float) : imv_image := img.
Definition zoom (v : imv_viewport) (img : imv_image) (src : zoom_source)
  (amount : Z) : imv_viewport := v.
Definition init_viewport (w h : Z) : imv_viewport :=
  mk_viewport w h 0%Q 0%Q 1%Q true false false.

Definition pf : platform := mk_platform None 0 0 1000.
Definition env : frame_env := mk_frame_env [] 1010 1011 1280 720.

(** Two paths, the cursor on the first, before the first load. *)
Definition st : state :=
  mk_state (mk_navigator ["a.png"; "b.png"] 0 true) imv_init_image None
           (init_viewport 1280 720) g_options (seconds 1000) (512, 512).

(** The same once "a.png" is dropped and "b.png" is loaded and fitted. *)
Definition img_b : imv_image :=
  mk_image (Some "b.png") [(mk_bitmap 640 480 1, (1 # 10)%Q)] 0 0%Q
           640 480 true.
Definition st_b : state :=
  mk_state (mk_navigator ["b.png"] 0 false) img_b None
           (imv_viewport_scale_to_window (init_viewport 1280 720) img_b)
           g_options (seconds 1000) (512, 512).

(** The state after one iteration on [st]: "b.png" is on the screen. *)
Definition img_shown : imv_image :=
  mk_image (Some "b.png") [(mk_bitmap 640 480 1, (1 # 10)%Q)] 0 0%Q
           640 480 false.
Definition st_shown : state :=
  mk_state (mk_navigator ["b.png"] 0 false) img_shown
           (Some (mk_bitmap 640 480 1))
           (clear_redraw
              (imv_viewport_scale_to_window (init_viewport 1280 720) img_b))
           g_options (seconds 1011) (512, 512).

Definition env_x : frame_env :=
  mk_frame_env [SDL_KEYDOWN SDLK_x] 1020 1021 1280 720.
Definition env_xq : frame_env :=
  mk_frame_env [SDL_KEYDOWN SDLK_x; SDL_KEYDOWN SDLK_q] 1020 1021 1280 720.


End Sample.

Section Imv.

(** The version string compiled in ([IMV_VERSION], from the build). *)
Variable IMV_VERSION : string.

(** Filesystem collaborator: the regular files found from a path, in
    enumeration order (the path itself for a plain file). *)
Variable list_files : string -> list string.

(** Decoder collaborator: the frames of the file, or a failure. *)
Variable decode : string -> option (frame * list frame).

(** image.c and viewport.c are not among the sources and the spec does
    not fix these three; they are left open. *)
Variable imv_image_play : imv_image -> float -> imv_image.
Variable imv_viewport_zoom :
  imv_viewport -> imv_image -> zoom_source -> Z -> imv_viewport.
Variable imv_init_viewport : Z -> Z -> imv_viewport.

(** Modelled from the spec: navigator.c is not among the sources.  "if p
    is a plain file, behaves as add_path; if a directory, enumerates its
    entries recursively and calls add_path on each regular file found". *)
Definition imv_navigator_add_path_recursive (nav : imv_navigator)
  (p : string) : imv_navigator :=
  fold_left imv_navigator_add_path (list_files p) nav.

(** Modelled from the spec: image.c is not among the sources.  The image
    after a successful load: "replaces frames, resets frame_index=0,
    frame_time_accum=0, updates dimensions, and sets changed". *)
Definition decoded (p : string) (f : frame) (fs : list frame) : imv_image :=
  mk_image (Some p) (f :: fs) 0 0%Q
    (bmp_width (fst f)) (bmp_height (fst f)) true.

(** Modelled from the spec: image.c is not among the sources.  "on
    decode failure, leaves prior state untouched and signals a
    DecodeError"; on success the image is [decoded].  The integer is the
    return value main.c compares with 0. *)
Definition imv_image_load (img : imv_image) (p : string)
  : M (imv_image * Z) :=
  match decode p with
  | None => emit (ELoad p false) ;;; ret (img, 1)
  | Some (f, fs) => emit (ELoad p true) ;;; ret (decoded p f fs, 0)
  end.

(** *** print_usage and parse_args *)

Definition usage_lines (name : string) : list string :=
  [ ("imv " ++ IMV_VERSION)%string;
    ("Usage: " ++ name ++ " [-irfah] [-n NUM] [images...]")%string;
    "";
    "Flags:";
    "  -i: Read paths from stdin. One path per line.";
    "  -r: Recursively search input paths.";
    "  -f: Start in fullscreen mode";
    "  -a: Default to images' actual size";
    "  -h: Print this help";
    "";
    "Options:";
    "  -n NUM: Start at picture number NUM.";
    "";
    "Mouse:";
    "   Click+Drag to Pan";
    "   MouseWheel to Zoom";
    "";
    "Hotkeys:";
    "         'q': Quit";
    "  '[',LArrow: Previous image";
    "  ']',RArrow: Next image";
    "     'i','+': Zoom in";
    "     'o','=': Zoom out";
    "         'h': Pan left";
    "         'j': Pan down";
    "         'k': Pan up";
    "         'l': Pan right";
    "         'r': Reset view";
    "         'a': Show image actual size";
    "         'c': Center view";
    "         'x': Close current image";
    "         'f': Toggle fullscreen";
    "         ' ': Toggle gif playback";
    "         '.': Step a frame of gif playback";
    "         'p': Print current image path to stdout";
    "";
    "Legal:";
    "This program is free software; you can redistribute it and/or";
    "modify it under the terms of the GNU General Public License";
    "as published by the Free Software Foundation; either version 2";
    "of the License, or (at your option) any later version.";
    "";
    "This software uses the FreeImage open source image library.";
    "See http://freeimage.sourceforge.net for details.";
    "FreeImage is used under the GNU GPLv2." ].

Definition print_usage (name : string) : M unit :=
  fprintf_stdout
    (String.concat "" (map (fun l => (l ++ C.nl)%string) (usage_lines name))).

Definition warn_deprecated_i : string :=
  ("Warning: '-i' is deprecated. Just use '-' instead." ++ C.nl)%string.
Definition warn_wrong_n : string :=
  ("Warning: wrong value for '-n'." ++ C.nl)%string.
Definition unknown_argument (optopt : ascii) : string :=
  ("Unknown argument '" ++ C.fmt_char optopt ++ "'. Aborting." ++ C.nl)%string.

(** [case 'n'] of the switch: [n = strtol(optarg, &end, 0)] stored in an
    int, then the test [*end != '\0' || n <= 0]. *)
Definition parse_n (o : options) (optarg : string) : M options :=
  let '(v, e) := C.strtol0 optarg in
  let n := C.to_int v in
  if negb (String.eqb e "") || (n <=? 0) then
    fprintf_stderr warn_wrong_n ;;; ret o
  else ret (set_start_at o (n - 1)).

(** The loop [while((o = getopt(...)) != -1) switch(o)], over the
    successive return values of getopt. *)
Fixpoint parse_args_loop (name : string) (rs : list getopt_ret)
  (o : options) : M options :=
  match rs with
  | [] => ret o
  | r :: rs' =>
      match g_o r with
      | "f"%char => parse_args_loop name rs' (set_fullscreen o 1)
      | "i"%char =>
          fprintf_stderr warn_deprecated_i ;;;
          parse_args_loop name rs' (set_stdin o 1)
      | "r"%char => parse_args_loop name rs' (set_recursive o 1)
      | "a"%char => parse_args_loop name rs' (set_actual o 1)
      | "h"%char => print_usage name ;;; exit 0
      | "n"%char =>
          o' <- parse_n o (g_optarg r) ;; parse_args_loop name rs' o'
      | "?"%char =>
          fprintf_stderr (unknown_argument (g_optopt r)) ;;; exit 1
      | _ => parse_args_loop name rs' o
      end
  end.

(** [parse_args(argc, argv)]: the options, and the operands left at
    [argv[optind..]]. *)
Definition parse_args (argv : list string) (o : options)
  : M (options * list string) :=
  let name := C.fmt_str (hd_error argv) in
  let '(rs, operands) := getopt_scan (tl argv) in
  o' <- parse_args_loop name rs o ;;
  ret (o', operands).

(** *** main: from the arguments to the first iteration *)

Definition add_input (o : options) (nav : imv_navigator) (p : string)
  : imv_navigator :=
  if truthy (recursive o) then imv_navigator_add_path_recursive nav p
  else imv_navigator_add_path nav p.

(** [for(int i = optind; i < argc; ++i)]. *)
Fixpoint add_operands (operands : list string) (o : options)
  (nav : imv_navigator) : options * imv_navigator :=
  match operands with
  | [] => (o, nav)
  | a :: rest =>
      if String.eqb "-" a then add_operands rest (set_stdin o 1) nav
      else add_operands rest o (add_input o nav a)
  end.

Definition BUF_SIZE : nat := 512.
Definition newline : ascii := ascii_of_nat 10.

(** The successive results of [fgets(buf, sizeof(buf), stdin)] until it
    returns NULL: each takes characters up to and including a newline,
    at most [BUF_SIZE - 1] of them.  [room] is the space left in the
    buffer, [cur] what the current call has read so far. *)
Fixpoint fgets_all (room : nat) (cur : string) (s : string) : list string :=
  match s with
  | EmptyString => match cur with EmptyString => [] | _ => [cur] end
  | String c s' =>
      let cur' := (cur ++ String c "")%string in
      if Ascii.eqb c newline || (room =? 1)%nat
      then cur' :: fgets_all (BUF_SIZE - 1) "" s'
      else fgets_all (room - 1) cur' s'
  end.

(** The C string in a buffer: what precedes the first NUL. *)
Fixpoint c_str (s : string) : string :=
  match s with
  | String c s' => if Ascii.eqb c zero then "" else String c (c_str s')
  | EmptyString => ""
  end.

(** The body of the [while(fgets(...))] loop.  With [len = 0] (the
    chunk starts with a NUL) [buf[len-1]] reads before the buffer. *)
Definition read_line (o : options) (nav : imv_navigator) (chunk : string)
  : M imv_navigator :=
  let buf := c_str chunk in
  match String.length buf with
  | O => undefined
  | S k =>
      let '(buf, len) :=
        match String.get k buf with
        | Some c => if Ascii.eqb c newline then (substring 0 k buf, k)
                    else (buf, S k)
        | None => (buf, S k)
        end in
      if (0 <? len)%nat then ret (add_input o nav buf) else ret nav
  end.

Fixpoint read_lines (chunks : list string) (o : options)
  (nav : imv_navigator) : M imv_navigator :=
  match chunks with
  | [] => ret nav
  | c :: rest => nav' <- read_line o nav c ;; read_lines rest o nav'
  end.

Definition read_stdin (stdin_text : string) (o : options)
  (nav : imv_navigator) : M imv_navigator :=
  read_lines (fgets_all (BUF_SIZE - 1) "" stdin_text) o nav.

(** The values [0, step, 2*step, ...] below [limit] of a loop
    [for(v = 0; v < limit; v += step)], for [step > 0]. *)
Definition steps (limit step : Z) : list Z :=
  map (fun k => Z.of_nat k * step)
      (seq 0 (Z.to_nat ((limit + step - 1) / step))).

(** *** create_chequered: the pixels

    The buffer [malloc] returns holds nothing yet ([None]); [memset]
    outside of it is undefined behaviour ([None] for the whole buffer).
    A pixel takes three bytes, a row [3 * width] of them. *)

Definition box_size : Z := 16.
Definition light : Z := 196.
Definition dark : Z := 96.

(** [color = l; if(((x/box_size) % 2 == 0) ^ ((y/box_size) % 2 == 0))
    color = d;] *)
Definition box_color (x y : Z) : Z :=
  if xorb ((x / box_size) mod 2 =? 0) ((y / box_size) mod 2 =? 0)
  then dark else light.

Definition pixel_buffer : Type := list (option Z).

(** [memset(pixels + off, c, n)]. *)
Definition memset (buf : pixel_buffer) (off c n : Z) : option pixel_buffer :=
  if (0 <=? off) && (off + n <=? Z.of_nat (List.length buf)) then
    Some (firstn (Z.to_nat off) buf
            ++ repeat (Some c) (Z.to_nat n)
            ++ skipn (Z.to_nat (off + n)) buf)
  else None.

(** [for(int x = 0; x < width; x += box_size)] and its body. *)
Fixpoint fill_row (width y : Z) (xs : list Z) (buf : pixel_buffer)
  : option pixel_buffer :=
  match xs with
  | [] => Some buf
  | x :: xs' =>
      match memset buf (3 * x + 3 * width * y) (box_color x y)
                   (3 * box_size) with
      | Some buf' => fill_row width y xs' buf'
      | None => None
      end
  end.

(** [for(int y = 0; y < height; y++)]. *)
Fixpoint fill_rows (width : Z) (ys : list Z) (buf : pixel_buffer)
  : option pixel_buffer :=
  match ys with
  | [] => Some buf
  | y :: ys' =>
      match fill_row width y (steps width box_size) buf with
      | Some buf' => fill_rows width ys' buf'
      | None => None
      end
  end.

(** The buffer handed to [SDL_UpdateTexture] (lines 363-373). *)
Definition chequered_pixels (width height : Z) : option pixel_buffer :=
  fill_rows width (steps height 1)
    (repeat None (Z.to_nat (3 * width * height))).

(** The size of the texture [create_chequered] makes. *)
Definition create_chequered (pf : platform) : Z * Z :=
  let w := if negb (max_texture_width pf =? 0)
                 && (max_texture_width pf <? 512)
           then max_texture_width pf else 512 in
  let h := if negb (max_texture_height pf =? 0)
                 && (max_texture_height pf <? 512)
           then max_texture_height pf else 512 in
  (w, h).

(** [create_chequered(renderer)] as main calls it (line 197): the
    pixels are written before the texture is made, and a write outside
    the buffer is undefined behaviour; the texture is known to main by
    its size. *)
Definition create_chequered_texture (pf : platform) : M (Z * Z) :=
  let '(width, height) := create_chequered pf in
  match chequered_pixels width height with
  | Some _ => ret (width, height)
  | None => undefined
  end.

Definition no_input_files : string :=
  ("No input files. Exiting." ++ C.nl)%string.
Definition no_input_files_left : string :=
  ("No input files left. Exiting." ++ C.nl)%string.

(** Lines 136-168: the navigator filled from the arguments and stdin. *)
Definition collect_paths (argv : list string) (stdin_text : string)
  : M (options * imv_navigator) :=
  let nav := imv_init_navigator in
  p <- parse_args argv g_options ;;
  let '(o, nav) := add_operands (snd p) (fst p) nav in
  nav <- (if truthy (stdin o) then read_stdin stdin_text o nav else ret nav) ;;
  ret (o, nav).

(** [main] up to the start of [while(!quit)]. *)
Definition main_startup (argv : list string) (stdin_text : string)
  (pf : platform) : M state :=
  if (List.length argv <? 2)%nat then
    print_usage (C.fmt_str (hd_error argv)) ;;; exit 1
  else
    p <- collect_paths argv stdin_text ;;
    let '(o, nav) := p in
    match imv_navigator_get_current_path nav with
    | None => fprintf_stderr no_input_files ;;; exit 1
    | Some _ =>
        match sdl_init_error pf with
        | Some err =>
            fprintf_stderr ("SDL Failed to Init: " ++ err ++ C.nl)%string ;;;
            exit 1
        | None =>
            chequered_tex <- create_chequered_texture pf ;;
            let img := imv_init_image in
            let view := imv_init_viewport 1280 720 in
            view <- (if truthy (fullscreen o)
                     then imv_viewport_toggle_fullscreen view
                     else ret view) ;;
            let last_time := seconds (ticks0 pf) in
            let nav := imv_navigator_set_path nav (start_at o) in
            ret (mk_state nav img None view o last_time chequered_tex)
        end
    end.

(** *** main: the control loop *)

Definition keydown (sym : keycode) (st : state) : M (state * bool) :=
  let nav := st_nav st in
  let img := st_img st in
  let view := st_view st in
  match sym with
  | SDLK_q => ret (st, true)
  | SDLK_LEFTBRACKET | SDLK_LEFT =>
      ret (with_nav st (imv_navigator_prev_path nav), false)
  | SDLK_RIGHTBRACKET | SDLK_RIGHT =>
      ret (with_nav st (imv_navigator_next_path nav), false)
  | SDLK_EQUALS | SDLK_i | SDLK_UP =>
      ret (with_view st (imv_viewport_zoom view img KBD 1), false)
  | SDLK_MINUS | SDLK_o | SDLK_DOWN =>
      ret (with_view st (imv_viewport_zoom view img KBD (-1)), false)
  | SDLK_a => ret (with_view st (imv_viewport_scale_to_actual view img), false)
  | SDLK_r => ret (with_view st (imv_viewport_scale_to_window view img), false)
  | SDLK_c => ret (with_view st (imv_viewport_center view img), false)
  | SDLK_j => ret (with_view st (imv_viewport_move view 0 (-50)), false)
  | SDLK_k => ret (with_view st (imv_viewport_move view 0 50), false)
  | SDLK_h => ret (with_view st (imv_viewport_move view 50 0), false)
  | SDLK_l => ret (with_view st (imv_viewport_move view (-50) 0), false)
  | SDLK_x =>
      ret (with_nav st (imv_navigator_remove_current_path nav), false)
  | SDLK_f =>
      v <- imv_viewport_toggle_fullscreen view ;; ret (with_view st v, false)
  | SDLK_PERIOD => ret (with_img st (imv_image_load_next_frame img), false)
  | SDLK_SPACE =>
      ret (with_view st (imv_viewport_toggle_playing view img), false)
  | SDLK_p =>
      match imv_navigator_get_current_path nav with
      | Some p => fprintf_stdout (p ++ C.nl)%string ;;; ret (st, false)
      | None => undefined
      end
  | SDLK_other _ => ret (st, false)
  end.

(** [switch(e.type)]; the boolean is [quit]. *)
Definition handle_event (env : frame_env) (e : SDL_Event) (st : state)
  : M (state * bool) :=
  match e with
  | SDL_QUIT => ret (st, true)
  | SDL_KEYDOWN sym => keydown sym st
  | SDL_MOUSEWHEEL wy =>
      ret (with_view st (imv_viewport_zoom (st_view st) (st_img st) MOUSE wy),
           false)
  | SDL_MOUSEMOTION ms xrel yrel =>
      if truthy (Z.land ms SDL_BUTTON_LMASK)
      then ret (with_view st (imv_viewport_move (st_view st) xrel yrel), false)
      else ret (st, false)
  | SDL_WINDOWEVENT =>
      ret (with_view st (imv_viewport_updated (st_view st) (st_img st)
                           (win_w env) (win_h env)), false)
  | SDL_OTHEREVENT => ret (st, false)
  end.

(** [while(!quit && SDL_PollEvent(&e))]. *)
Fixpoint poll_events (env : frame_env) (es : list SDL_Event) (st : state)
  : M (state * bool) :=
  match es with
  | [] => ret (st, false)
  | e :: es' =>
      r <- handle_event env e st ;;
      if snd r then ret r else poll_events env es' (fst r)
  end.

Definition loading_title (nav : imv_navigator) : string :=
  C.snprintf 256
    ("imv - [" ++ C.fmt_int (cur_path nav + 1) ++ "/"
     ++ C.fmt_int (num_paths nav) ++ "] [LOADING] "
     ++ C.fmt_str (imv_navigator_get_current_path nav))%string.

Definition loaded_title (nav : imv_navigator) (img : imv_image)
  (current_path : string) : string :=
  C.snprintf 256
    ("imv - [" ++ C.fmt_int (cur_path nav + 1) ++ "/"
     ++ C.fmt_int (num_paths nav) ++ "] ["
     ++ C.fmt_int (width img) ++ "x" ++ C.fmt_int (height img) ++ "] "
     ++ current_path)%string.

(** Lines 291-293: [if(g_options.actual) imv_viewport_scale_to_actual]. *)
Definition apply_actual (st : state) : state :=
  if truthy (actual (st_opts st)) then
    with_view st (imv_viewport_scale_to_actual (st_view st) (st_img st))
  else st.

(** The body of [while(imv_navigator_has_changed(&nav))] (lines 271-293). *)
Definition load_current (st : state) : M state :=
  let nav := st_nav st in
  let current_path := imv_navigator_get_current_path nav in
  imv_viewport_set_title (loading_title nav) ;;;
  match current_path with
  | None => fprintf_stderr no_input_files_left ;;; exit 1
  | Some p =>
      r <- imv_image_load (st_img st) p ;;
      let '(img, rc) := r in
      st1 <- (if negb (rc =? 0) then
                ret (with_nav st (imv_navigator_remove_current_path nav))
              else
                imv_viewport_set_title (loaded_title nav img p) ;;;
                ret (with_view (with_img st img)
                       (imv_viewport_scale_to_window (st_view st) img))) ;;
      ret (apply_actual st1)
  end.

(** [while(imv_navigator_has_changed(&nav)) { ... }], at most [fuel]
    tests of the condition; [None] when they do not suffice. *)
Fixpoint navigator_changes (fuel : nat) (st : state) : option (M state) :=
  match fuel with
  | O => None
  | S fuel' =>
      let '(c, nav) := imv_navigator_has_changed (st_nav st) in
      let st0 := with_nav st nav in
      if c then
        match load_current st0 with
        | (t, Ok st1) =>
            match navigator_changes fuel' st1 with
            | Some (t', r) => Some (t ++ t', r)
            | None => None
            end
        | (t, Exit code) => Some (t, Exit code)
        | (t, Undefined) => Some (t, Undefined)
        end
      else Some (ret st0)
  end.

(** Enough tests for any state: every pass but the last one or two
    removes a path. *)
Definition changes_fuel (st : state) : nat :=
  S (S (List.length (paths (st_nav st)))).

(** The loop at lines 270-294; the default is never taken
    ([navigator_changes_total]). *)
Definition drain_navigator (st : state) : M state :=
  match navigator_changes (changes_fuel st) st with
  | Some m => m
  | None => undefined
  end.

(** Lines 296-301. *)
Definition play_phase (env : frame_env) (st : state) : M state :=
  if playing (st_view st) then
    let cur_time := seconds (ticks_a env) in
    let dt := PrimFloat.sub cur_time (st_last_time st) in
    let st := with_last_time st (seconds (ticks_b env)) in
    emit (EPlay dt) ;;;
    ret (with_img st (imv_image_play (st_img st) dt))
  else ret st.

(** Lines 303-306. *)
Definition image_phase (st : state) : M state :=
  let '(c, img) := imv_image_has_changed (st_img st) in
  let st := with_img st img in
  if c then
    emit (ETextureSetImage (cur_bmp img)) ;;;
    ret (with_view (with_tex st (cur_bmp img))
           (imv_viewport_set_redraw (st_view st)))
  else ret st.

(** Lines 309-325. *)
Definition draw_background (env : frame_env) (st : state) : list event :=
  let o := st_opts st in
  if truthy (solid_bg o) then [ERenderClear (bg_r o) (bg_g o) (bg_b o)]
  else
    let '(img_w, img_h) := st_chequered st in
    flat_map (fun y =>
                map (fun x => ERenderCopy x y img_w img_h)
                    (steps (win_w env) img_w))
             (steps (win_h env) img_h).

(** Lines 308-329. *)
Definition paint_phase (env : frame_env) (st : state) : M state :=
  let view := st_view st in
  if redraw view then
    (draw_background env st
       ++ [ETextureDraw (x view) (y view) (scale view); ERenderPresent],
     Ok (with_view st (clear_redraw view)))
  else ret st.

(** One pass through the body of [while(!quit)] (lines 219-330). *)
Definition loop_iteration (env : frame_env) (st : state) : M iteration :=
  r <- poll_events env (pending env) st ;;
  let '(st, quit) := r in
  if quit then ret (Quit st)
  else
    st <- drain_navigator st ;;
    st <- play_phase env st ;;
    st <- image_phase st ;;
    st <- paint_phase env st ;;
    emit (EDelay 10) ;;;
    ret (Continue st).

(** The control loop over the iterations the platform feeds it, then
    the clean-up and [return 0] once [quit] is set. *)
Fixpoint main_loop (envs : list frame_env) (st : state) : M state :=
  match envs with
  | [] => ret st
  | env :: rest =>
      it <- loop_iteration env st ;;
      match it with
      | Quit _ => exit 0
      | Continue st' => main_loop rest st'
      end
  end.

Definition main (argv : list string) (stdin_text : string) (pf : platform)
  (envs : list frame_env) : M state :=
  st <- main_startup argv stdin_text pf ;;
  main_loop envs st.

(** What the navigator loop leaves behind, relative to the state [st] it
    started from: a state whose flag is drained, or the exit with
    status 1; never undefined behaviour. *)
Definition drain_post (st : state) (r : run state) : Prop :=
  match r with
  | Ok st' =>
      changed (st_nav st') = false
      /\ nav_wf (st_nav st')
      /\ incl (paths (st_nav st')) (paths (st_nav st))
      /\ (forall p, In p (paths (st_nav st)) -> decode p <> None ->
                    In p (paths (st_nav st')))
      /\ (changed (st_nav st) = true ->
          exists p, imv_navigator_get_current_path (st_nav st') = Some p
                    /\ decode p <> None)
      /\ (changed (st_nav st) = false ->
          paths (st_nav st') = paths (st_nav st)
          /\ cur_path (st_nav st') = cur_path (st_nav st))
  | Exit code =>
      code = 1 /\ changed (st_nav st) = true
      /\ (forall p, In p (paths (st_nav st)) -> decode p = None)
  | Undefined => False
  end.

(** The titles a trace sets, the frames it presents, the playback
    advances it makes. *)
Definition titles (t : list event) : list string :=
  flat_map (fun e => match e with ESetTitle s => [s] | _ => [] end) t.

Definition is_present (e : event) : bool :=
  match e with ERenderPresent => true | _ => false end.
Definition is_play (e : event) : bool :=
  match e with EPlay _ => true | _ => false end.

(** Events that are neither a presented frame nor a playback advance. *)
Definition quiet (t : list event) : Prop :=
  Forall (fun e => is_present e = false /\ is_play e = false) t.

(** The navigator between two iterations of the control loop: a valid
    cursor on a list that is not empty. *)
Definition has_current (st : state) : Prop :=
  nav_wf (st_nav st) /\ paths (st_nav st) <> [].

(** The navigator while events are handled: an emptied list has its
    changed flag up. *)
Definition nav_inv (nav : imv_navigator) : Prop :=
  nav_wf nav /\ (paths nav = [] -> changed nav = true).

(** The state behind the playback step and behind the paint step. *)
Definition played (env : frame_env) (st : state) : state :=
  if playing (st_view st) then
    with_img (with_last_time st (seconds (ticks_b env)))
      (imv_image_play (st_img st)
         (PrimFloat.sub (seconds (ticks_a env)) (st_last_time st)))
  else st.

Definition painted (st : state) : state :=
  if redraw (st_view st) then with_view st (clear_redraw (st_view st))
  else st.

(** An argument that names a path: not an option cluster, not "--",
    not "-". *)
Definition names_path (a : string) : Prop :=
  is_option a = false /\ a <> "-".

(** [-n]'s argument as main.c reads it: the int it stores, and what
    [end] points at. *)
Definition n_value (optarg : string) : Z := C.to_int (fst (C.strtol0 optarg)).
Definition n_rest (optarg : string) : string := snd (C.strtol0 optarg).

(** Text on stdin: lines, each closed by a newline.  A line the
    buffer of main.c takes whole has no newline and no NUL in it and
    at most [BUF_SIZE - 2] characters. *)
Fixpoint text_of (lines : list string) : string :=
  match lines with
  | [] => ""
  | l :: rest => (l ++ C.nl ++ text_of rest)%string
  end.

Fixpoint clean (l : string) : bool :=
  match l with
  | EmptyString => true
  | String c l' =>
      negb (Ascii.eqb c zero) && negb (Ascii.eqb c newline) && clean l'
  end.

Definition text_line (l : string) : Prop :=
  clean l = true /\ (String.length l <= BUF_SIZE - 2)%nat.

(** What one [fgets] result contributes: itself without the newline
    that may end it. *)
Definition strip_newline (buf : string) : string :=
  match String.length buf with
  | O => buf
  | S k =>
      match String.get k buf with
      | Some c => if Ascii.eqb c newline then substring 0 k buf else buf
      | None => buf
      end
  end.

Fixpoint no_nul (s : string) : bool :=
  match s with
  | EmptyString => true
  | String c s' => negb (Ascii.eqb c zero) && no_nul s'
  end.

Definition not_dash (a : string) : bool := negb (String.eqb "-" a).
Definition not_empty (l : string) : bool := (0 <? String.length l)%nat.





(** *** create_chequered: reading the pixels *)

(** The byte of channel [ch] of the pixel at ([x], [y]) in a buffer
    whose rows are [3 * width] bytes. *)
Definition pixel_byte (width : Z) (buf : pixel_buffer) (x y ch : Z)
  : option (option Z) :=
  nth_error buf (Z.to_nat (3 * x + 3 * width * y + ch)).

(** The bytes of one row of boxes and of the whole picture, as the
    loops write them one box after the other. *)
Definition box_bytes (y : Z) (k : nat) : pixel_buffer :=
  repeat (Some (box_color (Z.of_nat k * box_size) y)) 48.

Definition row_bytes (boxes : nat) (j : nat) : pixel_buffer :=
  List.concat (map (box_bytes (Z.of_nat j * 1)) (seq 0 boxes)).

(** *** parse_args: what the options can hold *)

Definition flag_value (v : Z) : Prop := v = 0 \/ v = 1.

Definition options_ok (o : options) : Prop :=
  flag_value (fullscreen o) /\ flag_value (stdin o)
  /\ flag_value (recursive o) /\ flag_value (actual o)
  /\ 0 <= start_at o < C.INT_MAX
  /\ solid_bg o = 0.

Definition is_warning (e : event) : Prop :=
  e = EStderr warn_deprecated_i \/ e = EStderr warn_wrong_n.

(** The return values of getopt at which [parse_args] leaves the
    process. *)
Definition stops (r : getopt_ret) : bool :=
  Ascii.eqb (g_o r) "h" || Ascii.eqb (g_o r) "?".

(** A computation with one more event in front. *)
Definition after_event {A} (e : event) (m : M A) : M A :=
  (e :: trace m, result m).

(** *** What a run writes and how it ends *)

Definition is_clear (e : event) : bool :=
  match e with ERenderClear _ _ _ => true | _ => false end.

Definition no_clear (t : list event) : Prop :=
  Forall (fun e => is_clear e = false) t.

(** An exit with status 0, or with status 1 right behind a message on
    stderr. *)
Definition exit_ok (t : list event) (c : Z) : Prop :=
  c = 0 \/ (c = 1 /\ exists t0 s, t = t0 ++ [EStderr s]).

Definition run_ok {A} (Q : A -> Prop) (m : M A) : Prop :=
  no_clear (trace m)
  /\ match result m with
     | Ok a => Q a
     | Exit c => exit_ok (trace m) c
     | Undefined => True
     end.

Definition chequered_bg (st : state) : Prop := solid_bg (st_opts st) = 0.

Definition iteration_state (it : iteration) : state :=
  match it with Continue st => st | Quit st => st end.

(** *** Paths from stdin, quit requests *)

Fixpoint no_newline (s : string) : bool :=
  match s with
  | EmptyString => true
  | String c s' => negb (Ascii.eqb c newline) && no_newline s'
  end.

(** What a path taken from stdin looks like. *)
Definition stdin_path (p : string) : Prop :=
  no_newline p = true /\ (1 <= String.length p <= BUF_SIZE - 1)%nat.

Definition is_quit (e : SDL_Event) : bool :=
  match e with
  | SDL_QUIT => true
  | SDL_KEYDOWN SDLK_q => true
  | _ => false
  end.

(** The characters of an option element behind its leading '-'. *)
Definition cluster (a : string) : string :=
  substring 1 (String.length a - 1) a.

(** A renderer on which the loops of [create_chequered] stay inside
    the buffer: it reports no negative limit, and the width the texture
    gets is a multiple of the box size (as the default 512 is). *)
Definition texture_fits (pf : platform) : Prop :=
  0 <= max_texture_width pf /\ 0 <= max_texture_height pf
  /\ fst (create_chequered pf) mod box_size = 0.

(** ** Properties *)

(** *** The chequered texture *)

Lemma skipn_none n : forall r,
  skipn n (repeat (@None Z) r) = repeat None (r - n).
Proof.
  induction n as [|n IH]; intros r; [now rewrite Nat.sub_0_r|].
  destruct r as [|r]; [reflexivity|]. cbn. apply IH.
Qed.

Lemma memset_at_end (written : pixel_buffer) r c n :
  (n <= r)%nat ->
  memset (written ++ repeat None r) (Z.of_nat (List.length written)) c
         (Z.of_nat n)
  = Some ((written ++ repeat (Some c) n) ++ repeat None (r - n)).
Proof.
  intros Hn. unfold memset. rewrite length_app, repeat_length.
  destruct ((0 <=? Z.of_nat (List.length written))
            && (Z.of_nat (List.length written) + Z.of_nat n
                <=? Z.of_nat (List.length written + r))) eqn:E.
  - rewrite Nat2Z.id, <- Nat2Z.inj_add, Nat2Z.id.
    rewrite firstn_app, Nat.sub_diag, firstn_all, firstn_O, app_nil_r.
    rewrite skipn_app, skipn_all2 by lia.
    rewrite skipn_none. cbn [app]. rewrite <- app_assoc.
    repeat f_equal. lia.
  - apply andb_false_iff in E.
    destruct E as [E|E]; [apply Z.leb_gt in E | apply Z.leb_gt in E]; lia.
Qed.

Lemma fill_row_blocks w y n : forall a (written : pixel_buffer) r,
  Z.of_nat (List.length written) = 3 * (Z.of_nat a * box_size) + 3 * w * y ->
  (48 * n <= r)%nat ->
  fill_row w y (map (fun k => Z.of_nat k * box_size) (seq a n))
    (written ++ repeat None r)
  = Some (written ++ List.concat (map (box_bytes y) (seq a n))
            ++ repeat None (r - 48 * n)).
Proof.
  induction n as [|n IH]; intros a written r Hlen Hr.
  - cbn. now rewrite Nat.sub_0_r.
  - cbn [seq map fill_row List.concat]. rewrite <- Hlen.
    change (3 * box_size) with (Z.of_nat 48).
    rewrite memset_at_end by lia.
    rewrite IH.
    + unfold box_bytes at 2. rewrite <- !app_assoc.
      replace (r - 48 * S n)%nat with (r - 48 - 48 * n)%nat by lia.
      reflexivity.
    + rewrite length_app, repeat_length, Nat2Z.inj_add, Hlen.
      unfold box_size. lia.
    + lia.
Qed.

Lemma steps_boxes boxes :
  steps (box_size * Z.of_nat boxes) box_size
  = map (fun k => Z.of_nat k * box_size) (seq 0 boxes).
Proof.
  unfold steps, box_size. do 2 f_equal.
  replace ((16 * Z.of_nat boxes + 16 - 1) / 16) with (Z.of_nat boxes);
    [apply Nat2Z.id|].
  apply Z.div_unique with 15; lia.
Qed.

Lemma steps_rows height :
  0 <= height ->
  steps height 1 = map (fun j => Z.of_nat j * 1) (seq 0 (Z.to_nat height)).
Proof.
  intros H. unfold steps. do 2 f_equal.
  replace (height + 1 - 1) with height by lia. now rewrite Z.div_1_r.
Qed.

Lemma length_boxes y n : forall a,
  List.length (List.concat (map (box_bytes y) (seq a n))) = (48 * n)%nat.
Proof.
  induction n as [|n IH]; intros a; [reflexivity|].
  cbn [seq map List.concat]. rewrite length_app, IH.
  unfold box_bytes. rewrite repeat_length. lia.
Qed.

Lemma length_row_bytes boxes j :
  List.length (row_bytes boxes j) = (48 * boxes)%nat.
Proof. apply length_boxes. Qed.

Lemma fill_rows_blocks boxes m : forall b (written : pixel_buffer) r,
  Z.of_nat (List.length written)
  = 3 * (box_size * Z.of_nat boxes) * Z.of_nat b ->
  (48 * boxes * m <= r)%nat ->
  fill_rows (box_size * Z.of_nat boxes)
    (map (fun j => Z.of_nat j * 1) (seq b m)) (written ++ repeat None r)
  = Some (written ++ List.concat (map (row_bytes boxes) (seq b m))
            ++ repeat None (r - 48 * boxes * m)).
Proof.
  induction m as [|m IH]; intros b written r Hlen Hr.
  - cbn [seq map fill_rows List.concat app].
    now rewrite Nat.mul_0_r, Nat.sub_0_r.
  - cbn [seq map fill_rows List.concat]. rewrite steps_boxes.
    rewrite fill_row_blocks; [| rewrite Hlen; unfold box_size; lia | nia].
    fold (row_bytes boxes b). rewrite app_assoc.
    rewrite IH.
    + rewrite <- !app_assoc.
      replace (r - 48 * boxes * S m)%nat
        with (r - 48 * boxes - 48 * boxes * m)%nat by nia.
      reflexivity.
    + rewrite length_app, length_row_bytes, Nat2Z.inj_add, Hlen.
      unfold box_size. lia.
    + nia.
Qed.

Lemma chequered_pixels_written width height :
  0 <= width -> 0 <= height -> width mod box_size = 0 ->
  exists buf, chequered_pixels width height = Some buf.
Proof.
  intros Hw Hh Hmod.
  set (boxes := Z.to_nat (width / box_size)).
  assert (Ew : width = box_size * Z.of_nat boxes).
  { unfold boxes. rewrite Z2Nat.id by (apply Z.div_pos; unfold box_size; lia).
    pose proof (Z.div_mod width box_size ltac:(unfold box_size; lia)). lia. }
  assert (Et : Z.to_nat (3 * width * height)
               = (48 * boxes * Z.to_nat height)%nat).
  { rewrite Ew. unfold box_size. nia. }
  clearbody boxes. subst width.
  unfold chequered_pixels. rewrite (steps_rows _ Hh), Et.
  change (repeat None (48 * boxes * Z.to_nat height))
    with ([] ++ repeat (@None Z) (48 * boxes * Z.to_nat height)).
  rewrite fill_rows_blocks; [eauto | cbn; lia | lia].
Qed.

Lemma create_chequered_texture_cases pf :
  create_chequered_texture pf = ret (create_chequered pf)
  \/ create_chequered_texture pf = undefined.
Proof.
  unfold create_chequered_texture. destruct (create_chequered pf) as [w h].
  destruct (chequered_pixels w h); auto.
Qed.

Lemma create_chequered_texture_fits pf :
  texture_fits pf ->
  create_chequered_texture pf = ret (create_chequered pf).
Proof.
  intros (Hw & Hh & Hmod). unfold create_chequered_texture.
  destruct (create_chequered pf) as [w h] eqn:E. cbn [fst] in Hmod.
  assert (0 <= w /\ 0 <= h) as [Hw' Hh'].
  { unfold create_chequered in E. inversion E; subst.
    destruct (negb _ && _); destruct (negb _ && _); lia. }
  destruct (chequered_pixels_written w h Hw' Hh' Hmod) as [buf ->].
  reflexivity.
Qed.

Lemma nth_error_blocks {A} (f : nat -> list A) L n :
  (forall k, List.length (f k) = L) ->
  forall a i j, (i < n)%nat -> (j < L)%nat ->
  nth_error (List.concat (map f (seq a n))) (i * L + j) = nth_error (f (a + i)%nat) j.
Proof.
  intros HL. induction n as [|n IH]; intros a i j Hi Hj; [lia|].
  cbn [seq map List.concat]. destruct i as [|i].
  - cbn [Nat.mul Nat.add]. rewrite nth_error_app1 by (rewrite HL; lia).
    now rewrite Nat.add_0_r.
  - rewrite nth_error_app2 by (rewrite HL; cbn; lia).
    rewrite HL. replace (S i * L + j - L)%nat with (i * L + j)%nat by (cbn; lia).
    rewrite IH by lia. f_equal. f_equal. lia.
Qed.

Lemma box_color_of_box x y :
  0 <= x -> box_color (x / box_size * box_size) y = box_color x y.
Proof.
  intros Hx. unfold box_color, box_size.
  now rewrite Z.div_mul by lia.
Qed.

(** X1: with a width that is a multiple of the box size, the loops of
    create_chequered stay inside the buffer and leave no byte of it
    unwritten: each of the three bytes of the pixel at (x, y) is 96
    where exactly one of x / 16 and y / 16 is even, and 196 elsewhere. *)
Theorem X1_chequered_pixels_pattern width height :
  0 <= width -> 0 <= height -> width mod box_size = 0 ->
  exists buf,
    chequered_pixels width height = Some buf
    /\ Z.of_nat (List.length buf) = 3 * width * height
    /\ forall x y ch,
         0 <= x < width -> 0 <= y < height -> 0 <= ch < 3 ->
         pixel_byte width buf x y ch = Some (Some (box_color x y)).
Proof.
  intros Hw Hh Hmod.
  set (boxes := Z.to_nat (width / box_size)).
  assert (Ew : width = box_size * Z.of_nat boxes).
  { unfold boxes. rewrite Z2Nat.id by (apply Z.div_pos; unfold box_size; lia).
    pose proof (Z.div_mod width box_size ltac:(unfold box_size; lia)). lia. }
  assert (Et : Z.to_nat (3 * width * height)
               = (48 * boxes * Z.to_nat height)%nat).
  { rewrite Ew. unfold box_size. nia. }
  clearbody boxes.
  exists (List.concat (map (row_bytes boxes) (seq 0 (Z.to_nat height)))).
  assert (Hlen : List.length
                   (List.concat
                      (map (row_bytes boxes) (seq 0 (Z.to_nat height))))
                 = (48 * boxes * Z.to_nat height)%nat).
  { generalize 0%nat at 1. generalize (Z.to_nat height).
    induction n as [|n IH]; intros a; [cbn; lia|].
    cbn [seq map List.concat]. rewrite length_app, IH, length_row_bytes. nia. }
  split; [|split].
  - unfold chequered_pixels. rewrite (steps_rows _ Hh), Et, Ew.
    change (repeat None (48 * boxes * Z.to_nat height))
      with ([] ++ repeat (@None Z) (48 * boxes * Z.to_nat height)).
    rewrite fill_rows_blocks; [| cbn; lia | lia].
    rewrite Nat.sub_diag. cbn [repeat app]. now rewrite app_nil_r.
  - rewrite Hlen. rewrite Ew. unfold box_size. nia.
  - intros x y ch Hx Hy Hc. unfold pixel_byte.
    set (q := Z.to_nat (x / box_size)).
    set (j := Z.to_nat (3 * (x mod box_size) + ch)).
    pose proof (Z.div_mod x box_size ltac:(unfold box_size; lia)) as Hdm.
    pose proof (Z.mod_pos_bound x box_size ltac:(unfold box_size; lia)) as Hmb.
    assert (Hq0 : 0 <= x / box_size) by (apply Z.div_pos; unfold box_size; lia).
    assert (Hqb : (q < boxes)%nat).
    { unfold q. apply Nat2Z.inj_lt. rewrite Z2Nat.id by lia.
      unfold box_size in *. nia. }
    assert (Hjb : (j < 48)%nat) by (unfold j, box_size in *; lia).
    replace (Z.to_nat (3 * x + 3 * width * y + ch))
      with (Z.to_nat y * (48 * boxes) + (q * 48 + j))%nat.
    2:{ apply Nat2Z.inj. rewrite Z2Nat.id by nia.
        rewrite Nat2Z.inj_add, Nat2Z.inj_mul, Nat2Z.inj_add, !Nat2Z.inj_mul.
        unfold q, j. rewrite !Z2Nat.id by (unfold box_size in *; lia).
        rewrite Ew. unfold box_size in *. nia. }
    rewrite (nth_error_blocks (row_bytes boxes) (48 * boxes));
      [| apply length_row_bytes | lia | nia].
    unfold row_bytes.
    rewrite (nth_error_blocks (box_bytes _) 48);
      [| intros; unfold box_bytes; apply repeat_length | lia | lia].
    unfold box_bytes. rewrite nth_error_repeat by lia.
    do 2 f_equal. cbn [Nat.add]. unfold q.
    rewrite !Z2Nat.id by lia. rewrite Z.mul_1_r.
    apply box_color_of_box. lia.
Qed.

Lemma memset_inside buf off c n b :
  0 <= n -> memset buf off c n = Some b ->
  List.length b = List.length buf
  /\ 0 <= off /\ off + n <= Z.of_nat (List.length buf).
Proof.
  intros Hn. unfold memset.
  destruct ((0 <=? off) && (off + n <=? Z.of_nat (List.length buf))) eqn:E;
    [|discriminate].
  apply andb_prop in E as [E1 E2].
  apply Z.leb_le in E1. apply Z.leb_le in E2.
  intros H. injection H as <-. split; [|lia].
  rewrite !length_app, repeat_length, length_firstn, length_skipn. lia.
Qed.

Lemma fill_row_inside w y xs : forall buf b,
  fill_row w y xs buf = Some b ->
  List.length b = List.length buf
  /\ Forall (fun x => 3 * x + 3 * w * y + 3 * box_size
                      <= Z.of_nat (List.length buf)) xs.
Proof.
  induction xs as [|x xs IH]; intros buf b; cbn [fill_row].
  - intros H. injection H as <-. split; [reflexivity | constructor].
  - destruct (memset buf (3 * x + 3 * w * y) (box_color x y) (3 * box_size))
      as [buf'|] eqn:E; [|discriminate].
    apply memset_inside in E; [|unfold box_size; lia].
    destruct E as (El & _ & Eb). intros H. apply IH in H as [Hl Hf].
    split; [congruence|]. constructor; [exact Eb|]. now rewrite <- El.
Qed.

Lemma fill_rows_inside w ys : forall buf b,
  fill_rows w ys buf = Some b ->
  List.length b = List.length buf
  /\ Forall (fun y =>
               Forall (fun x => 3 * x + 3 * w * y + 3 * box_size
                                <= Z.of_nat (List.length buf))
                      (steps w box_size)) ys.
Proof.
  induction ys as [|y ys IH]; intros buf b; cbn [fill_rows].
  - intros H. injection H as <-. split; [reflexivity | constructor].
  - destruct (fill_row w y (steps w box_size) buf) as [buf'|] eqn:E;
      [|discriminate].
    apply fill_row_inside in E as [El Ef].
    intros H. apply IH in H as [Hl Hf].
    split; [congruence|]. constructor; [exact Ef|]. now rewrite <- El.
Qed.

Lemma in_steps limit step k :
  0 < step -> 0 <= k -> k * step < limit -> In (k * step) (steps limit step).
Proof.
  intros Hs Hk Hlt. unfold steps. apply in_map_iff.
  exists (Z.to_nat k). split; [now rewrite Z2Nat.id|].
  apply in_seq. split; [lia|]. cbn [Nat.add].
  assert (Hq : k + 1 <= (limit + step - 1) / step)
    by (apply Z.div_le_lower_bound; nia).
  lia.
Qed.

(** X2: with a width that is no multiple of the box size, the last box
    of a row is written with its full 48 bytes all the same, and in the
    last row that write goes past the end of the buffer. *)
Theorem X2_chequered_pixels_overrun width height :
  0 < width -> 0 < height -> width mod box_size <> 0 ->
  chequered_pixels width height = None.
Proof.
  intros Hw Hh Hmod. unfold chequered_pixels.
  destruct (fill_rows width (steps height 1)
              (repeat None (Z.to_nat (3 * width * height)))) as [b|] eqn:E;
    [exfalso | reflexivity].
  apply fill_rows_inside in E as [_ Hf].
  rewrite repeat_length, Z2Nat.id in Hf by nia.
  rewrite Forall_forall in Hf.
  assert (Hy : In ((height - 1) * 1) (steps height 1))
    by (apply in_steps; lia).
  specialize (Hf _ Hy). rewrite Forall_forall in Hf.
  pose proof (Z.div_mod (width - 1) box_size ltac:(unfold box_size; lia)) as Hd.
  pose proof (Z.mod_pos_bound (width - 1) box_size
                ltac:(unfold box_size; lia)) as Hb.
  assert (Hx : In ((width - 1) / box_size * box_size) (steps width box_size)).
  { apply in_steps; [unfold box_size; lia | | unfold box_size in *; lia].
    apply Z.div_pos; unfold box_size; lia. }
  specialize (Hf _ Hx).
  apply Hmod.
  assert (Hall : (width - 1) mod box_size = box_size - 1)
    by (unfold box_size in *; nia).
  replace width with (((width - 1) / box_size + 1) * box_size)
    by (unfold box_size in *; lia).
  apply Z.mod_mul. unfold box_size. lia.
Qed.

(** X3: on a renderer that reports no negative limit, create_chequered
    makes a texture of at least one and at most 512 pixels each way,
    within the renderer's limit where it reports one, and the byte
    count [3 * width * height] stays far below the range of int. *)
Theorem X3_chequered_size_bounds pf :
  0 <= max_texture_width pf -> 0 <= max_texture_height pf ->
  let '(w, h) := create_chequered pf in
  1 <= w <= 512 /\ 1 <= h <= 512
  /\ (max_texture_width pf <> 0 -> w <= max_texture_width pf)
  /\ (max_texture_height pf <> 0 -> h <= max_texture_height pf)
  /\ (w = 512 \/ w = max_texture_width pf)
  /\ (h = 512 \/ h = max_texture_height pf)
  /\ 0 < 3 * w * h <= 786432 /\ 786432 < C.INT_MAX.
Proof.
  intros Hw Hh. unfold create_chequered.
  destruct (Z.eqb_spec (max_texture_width pf) 0);
    destruct (Z.ltb_spec (max_texture_width pf) 512);
    destruct (Z.eqb_spec (max_texture_height pf) 0);
    destruct (Z.ltb_spec (max_texture_height pf) 512);
    cbn [negb andb]; unfold C.INT_MAX;
    repeat split; try lia; try nia; auto.
Qed.


(** *** Lists with one element taken out *)

Lemma remove_at_split {A} (l : list A) i a :
  nth_error l i = Some a ->
  exists l1 l2, l = l1 ++ a :: l2 /\ remove_at i l = l1 ++ l2.
Proof.
  intros H. destruct (nth_error_split l i H) as (l1 & l2 & -> & <-).
  exists l1, l2. split; [reflexivity|]. unfold remove_at.
  induction l1 as [|b l1 IH]; simpl; [reflexivity|].
  f_equal. apply IH. exact H.
Qed.

Lemma remove_at_length {A} (l : list A) i a :
  nth_error l i = Some a ->
  S (List.length (remove_at i l)) = List.length l.
Proof.
  intros H. destruct (remove_at_split l i a H) as (l1 & l2 & -> & ->).
  rewrite !length_app. simpl. lia.
Qed.

Lemma remove_at_incl {A} (l : list A) i a :
  nth_error l i = Some a -> incl (remove_at i l) l.
Proof.
  intros H. destruct (remove_at_split l i a H) as (l1 & l2 & -> & ->).
  intros q Hq. apply in_app_or in Hq. apply in_or_app.
  destruct Hq; [left | right; right]; assumption.
Qed.

Lemma remove_at_others {A} (l : list A) i a q :
  nth_error l i = Some a -> In q l -> q = a \/ In q (remove_at i l).
Proof.
  intros H Hq. destruct (remove_at_split l i a H) as (l1 & l2 & -> & ->).
  apply in_app_or in Hq. destruct Hq as [Hq | [Hq | Hq]].
  - right. apply in_or_app. now left.
  - left. now symmetry.
  - right. apply in_or_app. now right.
Qed.

(** *** The navigator keeps its cursor valid *)

Lemma current_path_nth nav p :
  imv_navigator_get_current_path nav = Some p ->
  nth_error (paths nav) (Z.to_nat (cur_path nav)) = Some p.
Proof.
  unfold imv_navigator_get_current_path.
  destruct (paths nav); [discriminate | auto].
Qed.

Lemma current_path_none nav :
  nav_wf nav ->
  imv_navigator_get_current_path nav = None -> paths nav = [].
Proof.
  unfold imv_navigator_get_current_path, nav_wf, num_paths.
  intros [[H _] | H] Hn; [assumption|].
  destruct (paths nav) as [|a l] eqn:E; [reflexivity|].
  apply nth_error_None in Hn. lia.
Qed.

Lemma current_path_some nav :
  nav_wf nav -> paths nav <> [] ->
  exists p, imv_navigator_get_current_path nav = Some p.
Proof.
  intros Hwf Hne.
  destruct (imv_navigator_get_current_path nav) as [p|] eqn:E.
  - now exists p.
  - elim Hne. now apply current_path_none.
Qed.

Lemma has_changed_path nav :
  imv_navigator_get_current_path (snd (imv_navigator_has_changed nav))
  = imv_navigator_get_current_path nav.
Proof. reflexivity. Qed.

Lemma remove_current_wf nav :
  nav_wf nav -> nav_wf (imv_navigator_remove_current_path nav).
Proof.
  unfold nav_wf, imv_navigator_remove_current_path, num_paths.
  intros Hwf.
  destruct (remove_at (Z.to_nat (cur_path nav)) (paths nav)) as [|a l] eqn:E;
    cbn [paths cur_path].
  - now left.
  - right. destruct Hwf as [[Hp _] | Hc].
    + rewrite Hp in E. unfold remove_at in E.
      rewrite firstn_nil, skipn_nil in E. discriminate.
    + destruct (cur_path nav <? Z.of_nat (List.length (a :: l))) eqn:Hlt.
      * apply Z.ltb_lt in Hlt. lia.
      * cbn [List.length]. lia.
Qed.

Lemma add_path_wf nav p :
  nav_wf nav -> nav_wf (imv_navigator_add_path nav p).
Proof.
  unfold nav_wf, imv_navigator_add_path, num_paths. intros Hwf.
  destruct (in_dec string_dec p (paths nav)); [assumption|].
  destruct (paths nav) as [|a l] eqn:E; cbn [paths cur_path].
  - right. simpl. lia.
  - right. destruct Hwf as [[Hp _] | Hc]; [discriminate|].
    rewrite length_app. cbn [List.length] in *. lia.
Qed.

Lemma next_path_wf nav :
  nav_wf nav -> nav_wf (imv_navigator_next_path nav).
Proof.
  unfold nav_wf, imv_navigator_next_path, num_paths. intros Hwf.
  destruct (paths nav) as [|a l] eqn:E; [now rewrite E|].
  cbn [paths cur_path]. right.
  destruct Hwf as [[Hp _] | Hc]; [discriminate|].
  destruct (cur_path nav + 1 <? Z.of_nat (List.length (a :: l))) eqn:Hlt.
  - apply Z.ltb_lt in Hlt. lia.
  - cbn [List.length]. lia.
Qed.

Lemma prev_path_wf nav :
  nav_wf nav -> nav_wf (imv_navigator_prev_path nav).
Proof.
  unfold nav_wf, imv_navigator_prev_path, num_paths. intros Hwf.
  destruct (paths nav) as [|a l] eqn:E; [now rewrite E|].
  cbn [paths cur_path]. right.
  destruct Hwf as [[Hp _] | Hc]; [discriminate|].
  destruct (cur_path nav - 1 <? 0) eqn:Hlt.
  - cbn [List.length]. lia.
  - apply Z.ltb_ge in Hlt. lia.
Qed.

Lemma set_path_wf nav n : nav_wf (imv_navigator_set_path nav n).
Proof.
  unfold nav_wf, imv_navigator_set_path, num_paths.
  destruct (paths nav) as [|a l] eqn:E; cbn [paths cur_path].
  - now left.
  - right. cbn [List.length]. lia.
Qed.

(** *** The body of the navigator loop *)

Lemma load_current_eq st :
  load_current st =
  match imv_navigator_get_current_path (st_nav st) with
  | None =>
      ([ESetTitle (loading_title (st_nav st)); EStderr no_input_files_left],
       Exit 1)
  | Some p =>
      match decode p with
      | None =>
          ([ESetTitle (loading_title (st_nav st)); ELoad p false],
           Ok (apply_actual
                 (with_nav st (imv_navigator_remove_current_path (st_nav st)))))
      | Some (f, fs) =>
          ([ESetTitle (loading_title (st_nav st)); ELoad p true;
            ESetTitle (loaded_title (st_nav st) (decoded p f fs) p)],
           Ok (apply_actual
                 (with_view (with_img st (decoded p f fs))
                    (imv_viewport_scale_to_window (st_view st)
                       (decoded p f fs)))))
      end
  end.
Proof.
  unfold load_current, imv_image_load.
  destruct (imv_navigator_get_current_path (st_nav st)) as [p|];
    [|reflexivity].
  destruct (decode p) as [[f fs]|]; reflexivity.
Qed.

Lemma apply_actual_nav st : st_nav (apply_actual st) = st_nav st.
Proof. unfold apply_actual. now destruct (truthy _). Qed.

Lemma navigator_changes_unfold fuel st :
  navigator_changes (S fuel) st =
  let st0 := with_nav st (snd (imv_navigator_has_changed (st_nav st))) in
  if changed (st_nav st) then
    match load_current st0 with
    | (t, Ok st1) =>
        match navigator_changes fuel st1 with
        | Some (t', r) => Some (t ++ t', r)
        | None => None
        end
    | (t, Exit code) => Some (t, Exit code)
    | (t, Undefined) => Some (t, Undefined)
    end
  else Some (ret st0).
Proof. reflexivity. Qed.

(** The loop ends from every state: a pass that does not end it removes
    a path. *)
Lemma navigator_changes_total n : forall st fuel,
  (List.length (paths (st_nav st)) <= n)%nat -> (n + 2 <= fuel)%nat ->
  navigator_changes fuel st <> None.
Proof.
  induction n as [|n IH]; intros st fuel Hlen Hfuel;
    (destruct fuel as [|fuel]; [lia|]);
    rewrite navigator_changes_unfold; cbv zeta;
    (destruct (changed (st_nav st)); [|discriminate]);
    rewrite load_current_eq; cbn [st_nav with_nav];
    rewrite has_changed_path;
    (destruct (imv_navigator_get_current_path (st_nav st)) as [p|] eqn:Hp;
     [|discriminate]);
    pose proof (current_path_nth _ _ Hp) as Hnth;
    pose proof (remove_at_length _ _ _ Hnth) as Hl.
  - lia.
  - destruct (decode p) as [[f fs]|].
    + destruct fuel as [|fuel]; [lia|].
      rewrite navigator_changes_unfold; cbv zeta.
      rewrite apply_actual_nav. cbn [st_nav with_nav with_view with_img].
      cbn [changed imv_navigator_has_changed snd]. discriminate.
    + set (st1 := apply_actual _).
      assert (Hps : paths (st_nav st1)
                    = remove_at (Z.to_nat (cur_path (st_nav st)))
                                (paths (st_nav st))).
      { unfold st1. rewrite apply_actual_nav. cbn [st_nav with_nav].
        unfold imv_navigator_remove_current_path. cbn [paths cur_path].
        now destruct (remove_at _ _). }
      pose proof (IH st1 fuel ltac:(rewrite Hps; lia) ltac:(lia)) as Hrec.
      destruct (navigator_changes fuel st1) as [[t' r]|];
        [discriminate | now elim Hrec].
Qed.

Lemma navigator_changes_spec n : forall st fuel,
  (List.length (paths (st_nav st)) <= n)%nat -> (n + 2 <= fuel)%nat ->
  nav_wf (st_nav st) ->
  exists t r, navigator_changes fuel st = Some (t, r) /\ drain_post st r.
Proof.
  induction n as [|n IH]; intros st fuel Hlen Hfuel Hwf;
    (destruct fuel as [|fuel]; [lia|]);
    rewrite navigator_changes_unfold; cbv zeta;
    destruct (changed (st_nav st)) eqn:Hc.
  all: try (eexists; eexists; split; [reflexivity|];
            cbn; repeat split; auto using incl_refl; congruence).
  all: rewrite load_current_eq; cbn [st_nav with_nav];
    rewrite has_changed_path;
    destruct (imv_navigator_get_current_path (st_nav st)) as [p|] eqn:Hp.
  all: try (eexists; eexists; split; [reflexivity|];
            cbn; repeat split; auto;
            rewrite (current_path_none _ Hwf Hp); intros ? []).
  - (* no path can be current in an empty list *)
    apply current_path_nth in Hp.
    destruct (paths (st_nav st)); [|cbn in Hlen; lia].
    now destruct (Z.to_nat (cur_path (st_nav st))).
  - pose proof (current_path_nth _ _ Hp) as Hnth.
    destruct (decode p) as [[f fs]|] eqn:Hd.
    + (* loaded: the flag stays down, the next test ends the loop *)
      destruct fuel as [|fuel]; [lia|].
      rewrite navigator_changes_unfold; cbv zeta.
      rewrite apply_actual_nav. cbn [st_nav with_nav with_view with_img].
      cbn [imv_navigator_has_changed snd changed].
      eexists; eexists; split; [reflexivity|].
      cbn. repeat split; auto using incl_refl; try congruence.
      intros _. exists p. split; [exact Hp | congruence].
    + (* failed: the path is removed and the loop goes on *)
      set (st1 := apply_actual _).
      assert (Hnav1 : st_nav st1
                      = imv_navigator_remove_current_path (st_nav st))
        by (unfold st1; now rewrite apply_actual_nav).
      assert (Hps : paths (st_nav st1)
                    = remove_at (Z.to_nat (cur_path (st_nav st)))
                                (paths (st_nav st))).
      { rewrite Hnav1. unfold imv_navigator_remove_current_path.
        now destruct (remove_at _ _). }
      assert (Hc1 : changed (st_nav st1) = true).
      { rewrite Hnav1. unfold imv_navigator_remove_current_path.
        now destruct (remove_at _ _). }
      pose proof (remove_at_length _ _ _ Hnth) as Hl.
      destruct (IH st1 fuel) as (t' & r & Hrun & Hpost).
      * rewrite Hps. lia.
      * lia.
      * rewrite Hnav1. now apply remove_current_wf.
      * rewrite Hrun. eexists; eexists; split; [reflexivity|].
        unfold drain_post in *. destruct r as [st'|code|]; [| |assumption].
        -- destruct Hpost as (H1 & H2 & H3 & H4 & H5 & _).
           rewrite Hps in H3, H4. repeat split; auto; try congruence.
           ++ intros q Hq. eapply remove_at_incl; eauto.
           ++ intros q Hq Hdq. apply H4; [|assumption].
              destruct (remove_at_others _ _ _ q Hnth Hq); [|assumption].
              congruence.
        -- destruct Hpost as (H1 & _ & H3). rewrite Hps in H3.
           repeat split; auto. intros q Hq.
           destruct (remove_at_others _ _ _ q Hnth Hq); [congruence|auto].
Qed.

Lemma drain_navigator_spec st :
  nav_wf (st_nav st) ->
  exists t r, navigator_changes (changes_fuel st) st = Some (t, r)
              /\ drain_navigator st = (t, r) /\ drain_post st r.
Proof.
  intros Hwf.
  destruct (navigator_changes_spec (List.length (paths (st_nav st))) st
              (changes_fuel st)) as (t & r & Hrun & Hpost);
    [lia | unfold changes_fuel; lia | assumption |].
  exists t, r. unfold drain_navigator. rewrite Hrun. auto.
Qed.

(** C1: a failed load removes the current path and the loop goes on
    with the new current path; the loop always ends, either in a state
    whose changed flag is down, whose current path (if the flag was up)
    loads, and from whose list only paths that fail to load are gone,
    or by exit 1 once every path has failed and been removed. *)
Theorem C1_failed_paths_are_dropped_until_one_loads st :
  nav_wf (st_nav st) ->
  (exists t r, drain_navigator st = (t, r) /\ drain_post st r)
  /\
  (forall p,
      changed (st_nav st) = true ->
      imv_navigator_get_current_path (st_nav st) = Some p ->
      decode p = None ->
      let st1 :=
        apply_actual
          (with_nav st (imv_navigator_remove_current_path (st_nav st))) in
      drain_navigator st =
      ([ESetTitle (loading_title (st_nav st)); ELoad p false]
         ++ trace (drain_navigator st1),
       result (drain_navigator st1))).
Proof.
  intros Hwf. split.
  - destruct (drain_navigator_spec st Hwf) as (t & r & _ & H1 & H2).
    now exists t, r.
  - intros p Hc Hp Hd st1.
    pose proof (current_path_nth _ _ Hp) as Hnth.
    pose proof (remove_at_length _ _ _ Hnth) as Hl.
    assert (Hps : paths (st_nav st1)
                  = remove_at (Z.to_nat (cur_path (st_nav st)))
                              (paths (st_nav st))).
    { unfold st1. rewrite apply_actual_nav. cbn [st_nav with_nav].
      unfold imv_navigator_remove_current_path.
      now destruct (remove_at _ _). }
    unfold drain_navigator at 1.
    replace (changes_fuel st) with (S (changes_fuel st1))
      by (unfold changes_fuel; rewrite Hps; lia).
    rewrite navigator_changes_unfold; cbv zeta. rewrite Hc.
    rewrite load_current_eq. cbn [st_nav with_nav].
    rewrite has_changed_path, Hp, Hd.
    change (apply_actual _) with st1.
    unfold drain_navigator.
    destruct (navigator_changes (changes_fuel st1) st1) as [[t' r]|] eqn:E.
    + reflexivity.
    + exfalso.
      destruct (drain_navigator_spec st1) as (t & r & H1 & _).
      * unfold st1. rewrite apply_actual_nav. cbn [st_nav with_nav].
        now apply remove_current_wf.
      * congruence.
Qed.

(** *** Titles *)

(** C8: every pass of the navigator loop first sets the title to the
    loading title of the current path; a load that succeeds then sets
    the title with the image's width and height and fits the viewport
    to the window, a load that fails sets no other title. *)
Theorem C8_title_shows_loading_then_size st :
  let nav := st_nav st in
  let current_path := imv_navigator_get_current_path nav in
  hd_error (trace (load_current st)) = Some (ESetTitle (loading_title nav))
  /\ loading_title nav
     = C.snprintf 256
         ("imv - [" ++ C.fmt_int (cur_path nav + 1) ++ "/"
          ++ C.fmt_int (num_paths nav) ++ "] [LOADING] "
          ++ C.fmt_str current_path)%string
  /\ match current_path with
     | None => titles (trace (load_current st)) = [loading_title nav]
     | Some p =>
         match decode p with
         | Some (f, fs) =>
             let img := decoded p f fs in
             titles (trace (load_current st))
             = [loading_title nav;
                C.snprintf 256
                  ("imv - [" ++ C.fmt_int (cur_path nav + 1) ++ "/"
                   ++ C.fmt_int (num_paths nav) ++ "] ["
                   ++ C.fmt_int (bmp_width (fst f)) ++ "x"
                   ++ C.fmt_int (bmp_height (fst f)) ++ "] " ++ p)%string]
             /\ result (load_current st)
                = Ok (apply_actual
                        (with_view (with_img st img)
                           (imv_viewport_scale_to_window (st_view st) img)))
         | None =>
             titles (trace (load_current st)) = [loading_title nav]
             /\ exists st', result (load_current st) = Ok st'
                            /\ st_img st' = st_img st
         end
     end.
Proof.
  cbv zeta. split; [|split; [reflexivity|]]; rewrite load_current_eq;
    (destruct (imv_navigator_get_current_path (st_nav st)) as [p|];
     [destruct (decode p) as [[f fs]|]|]);
    cbn [trace result fst snd hd_error]; try reflexivity.
  - split; reflexivity.
  - split; [reflexivity|].
    eexists; split; [reflexivity|].
    unfold apply_actual. now destruct (truthy _).
Qed.

(** *** Panning keys *)

(** C4 as amended: 'l' calls move with (-50, 0) and 'h' with (+50, 0);
    move adds its arguments to the offset and asks for a redraw. *)
Theorem C4_l_moves_by_minus_50_and_h_by_plus_50 st :
  keydown SDLK_l st
  = ret (with_view st (imv_viewport_move (st_view st) (-50) 0), false)
  /\ keydown SDLK_h st
     = ret (with_view st (imv_viewport_move (st_view st) 50 0), false)
  /\ (forall v dx dy,
         x (imv_viewport_move v dx dy) = (x v + inject_Z dx)%Q
         /\ y (imv_viewport_move v dx dy) = (y v + inject_Z dy)%Q
         /\ scale (imv_viewport_move v dx dy) = scale v
         /\ redraw (imv_viewport_move v dx dy) = true)
  /\ (forall st', result (keydown SDLK_l st) = Ok (st', false) ->
                  (x (st_view st') == x (st_view st) - 50)%Q)
  /\ (forall st', result (keydown SDLK_h st) = Ok (st', false) ->
                  (x (st_view st') == x (st_view st) + 50)%Q).
Proof.
  repeat split; try reflexivity.
  - intros st' H. cbn in H. injection H as <-. cbn. ring.
  - intros st' H. cbn in H. injection H as <-. cbn. ring.
Qed.

(** *** The phases of one iteration *)

Lemma bind_ok {A B} (m : M A) (f : A -> M B) t a :
  m = (t, Ok a) -> bind m f = (t ++ trace (f a), result (f a)).
Proof. intros ->. unfold bind, trace, result. now destruct (f a). Qed.

Lemma bind_exit {A B} (m : M A) (f : A -> M B) t c :
  m = (t, Exit c) -> bind m f = (t, Exit c).
Proof. now intros ->. Qed.

Lemma bind_undefined {A B} (m : M A) (f : A -> M B) t :
  m = (t, Undefined) -> bind m f = (t, Undefined).
Proof. now intros ->. Qed.

Lemma quiet_app t t' : quiet t -> quiet t' -> quiet (t ++ t').
Proof. intros. apply Forall_app. now split. Qed.





Ltac quiet_now :=
  repeat (apply Forall_cons; [split; reflexivity|]); apply Forall_nil.

Lemma nav_inv_remove nav :
  nav_inv nav -> nav_inv (imv_navigator_remove_current_path nav).
Proof.
  intros [Hwf _]. split; [now apply remove_current_wf|].
  unfold imv_navigator_remove_current_path. now destruct (remove_at _ _).
Qed.

Lemma nav_inv_next nav :
  nav_inv nav -> nav_inv (imv_navigator_next_path nav).
Proof.
  intros [Hwf He]. split; [now apply next_path_wf|].
  unfold imv_navigator_next_path.
  destruct (paths nav) eqn:E; [intros _; now apply He | reflexivity].
Qed.

Lemma nav_inv_prev nav :
  nav_inv nav -> nav_inv (imv_navigator_prev_path nav).
Proof.
  intros [Hwf He]. split; [now apply prev_path_wf|].
  unfold imv_navigator_prev_path.
  destruct (paths nav) eqn:E; [intros _; now apply He | reflexivity].
Qed.

(** Handling an event presents no frame and advances no playback,
    leaves the options and the playback clock alone, and keeps the
    navigator's invariant. *)
Lemma handle_event_facts env e st t st' q :
  handle_event env e st = (t, Ok (st', q)) ->
  quiet t /\ st_last_time st' = st_last_time st
  /\ st_opts st' = st_opts st
  /\ (nav_inv (st_nav st) -> nav_inv (st_nav st')).
Proof.
  destruct e as [|sym| | ms ? ?| |]; cbn.
  2: destruct sym; cbn.
  all: try destruct (imv_navigator_get_current_path (st_nav st)); cbn.
  all: try destruct (truthy (Z.land ms SDL_BUTTON_LMASK)); cbn.
  all: intros H; inversion H; subst; clear H; cbn.
  all: (split; [quiet_now|]); (split; [reflexivity|]);
    (split; [reflexivity|]);
    auto using nav_inv_remove, nav_inv_next, nav_inv_prev.
Qed.

Lemma poll_events_facts env es : forall st t st' q,
  poll_events env es st = (t, Ok (st', q)) ->
  quiet t /\ st_last_time st' = st_last_time st
  /\ st_opts st' = st_opts st
  /\ (nav_inv (st_nav st) -> nav_inv (st_nav st')).
Proof.
  induction es as [|e es IH]; intros st t st' q; cbn [poll_events].
  - intros H. inversion H; subst.
    split; [apply Forall_nil|]. split; [reflexivity|]. split; auto.
  - destruct (handle_event env e st) as [t1 [[st1 q1]| |]] eqn:He;
      [|discriminate | discriminate].
    apply handle_event_facts in He. destruct He as (Q1 & L1 & O1 & N1).
    unfold bind. cbn [snd fst].
    destruct q1.
    + cbn. intros H. inversion H; subst. rewrite app_nil_r. auto.
    + destruct (poll_events env es st1) as [t2 r2] eqn:Hp.
      intros H. inversion H; subst. clear H.
      destruct (IH _ _ _ _ Hp) as (Q2 & L2 & O2 & N2).
      split; [now apply quiet_app|]. split; [congruence|].
      split; [congruence | auto].
Qed.





Lemma play_phase_eq env st :
  play_phase env st =
  if playing (st_view st) then
    ([EPlay (PrimFloat.sub (seconds (ticks_a env)) (st_last_time st))],
     Ok (with_img (with_last_time st (seconds (ticks_b env)))
           (imv_image_play (st_img st)
              (PrimFloat.sub (seconds (ticks_a env)) (st_last_time st)))))
  else ([], Ok st).
Proof. unfold play_phase. now destruct (playing _). Qed.

Lemma image_phase_eq st :
  exists t st', image_phase st = (t, Ok st') /\ quiet t
                /\ st_nav st' = st_nav st
                /\ st_last_time st' = st_last_time st.
Proof.
  unfold image_phase. cbn. destruct (img_changed (st_img st)); cbn.
  - eexists; eexists; repeat split. quiet_now.
  - eexists; eexists; repeat split. quiet_now.
Qed.


Lemma paint_phase_eq env st :
  paint_phase env st =
  if redraw (st_view st) then
    (draw_background env st
       ++ [ETextureDraw (x (st_view st)) (y (st_view st)) (scale (st_view st));
           ERenderPresent],
     Ok (with_view st (clear_redraw (st_view st))))
  else ([], Ok st).
Proof. reflexivity. Qed.



Lemma play_phase_result env st :
  result (play_phase env st) = Ok (played env st).
Proof. rewrite play_phase_eq. unfold played. now destruct (playing _). Qed.


Lemma paint_phase_result env st :
  result (paint_phase env st) = Ok (painted st).
Proof. rewrite paint_phase_eq. unfold painted. now destruct (redraw _). Qed.


Lemma M_eta {A} (m : M A) : m = (trace m, result m).
Proof. now destruct m. Qed.

(** An iteration in which [quit] stays down and the navigator loop
    comes back runs the playback, image and paint steps to its end. *)
Lemma loop_iteration_reaches env st t1 st1 t2 st2 :
  poll_events env (pending env) st = (t1, Ok (st1, false)) ->
  drain_navigator st1 = (t2, Ok st2) ->
  exists ti st4,
    image_phase (played env st2) = (ti, Ok st4) /\ quiet ti
    /\ st_nav st4 = st_nav st2
    /\ st_last_time st4 = st_last_time (played env st2)
    /\ loop_iteration env st
       = (t1 ++ t2 ++ trace (play_phase env st2) ++ ti
             ++ trace (paint_phase env st4) ++ [EDelay 10],
          Ok (Continue (painted st4))).
Proof.
  intros Hpoll Hdrain.
  destruct (image_phase_eq (played env st2)) as (ti & st4 & Hi & Qi & Ni & Li).
  exists ti, st4. repeat split; auto.
  - rewrite Ni. unfold played. now destruct (playing _).
  - assert (Hplay : play_phase env st2
                    = (trace (play_phase env st2), Ok (played env st2)))
      by (rewrite <- (play_phase_result env st2); apply M_eta).
    assert (Hpaint : paint_phase env st4
                     = (trace (paint_phase env st4), Ok (painted st4)))
      by (rewrite <- (paint_phase_result env st4); apply M_eta).
    unfold loop_iteration.
    rewrite (bind_ok _ _ _ _ Hpoll). cbv beta iota.
    rewrite (bind_ok _ _ _ _ Hdrain).
    rewrite (bind_ok _ _ _ _ Hplay).
    rewrite (bind_ok _ _ _ _ Hi).
    rewrite (bind_ok _ _ _ _ Hpaint).
    cbn [trace result fst snd bind emit ret app].
    reflexivity.
Qed.

Lemma loop_iteration_continue env st t st' :
  loop_iteration env st = (t, Ok (Continue st')) ->
  exists t1 st1 t2 st2,
    poll_events env (pending env) st = (t1, Ok (st1, false))
    /\ drain_navigator st1 = (t2, Ok st2).
Proof.
  unfold loop_iteration.
  destruct (poll_events env (pending env) st) as [t1 [[st1 q]| |]] eqn:Hp;
    [|discriminate | discriminate].
  rewrite (bind_ok _ _ _ _ eq_refl). cbv beta iota.
  destruct q; [discriminate|].
  destruct (drain_navigator st1) as [t2 [st2| |]] eqn:Hd;
    [|discriminate | discriminate].
  intros _. now exists t1, st1, t2, st2.
Qed.

(** Handling an event never leaves the process; where it meets
    undefined behaviour nothing has been printed by it. *)
Lemma handle_event_stops env e st t r :
  handle_event env e st = (t, r) ->
  match r with
  | Ok _ => True
  | Exit _ => False
  | Undefined => t = []
  end.
Proof.
  destruct e as [|sym| | ms ? ?| |]; cbn.
  2: destruct sym; cbn.
  all: try destruct (imv_navigator_get_current_path (st_nav st)); cbn.
  all: try destruct (truthy (Z.land ms SDL_BUTTON_LMASK)); cbn.
  all: intros H; inversion H; subst; auto.
Qed.

Lemma poll_events_stops env es : forall st,
  quiet (trace (poll_events env es st))
  /\ forall c, result (poll_events env es st) <> Exit c.
Proof.
  induction es as [|e es IH]; intros st; cbn [poll_events].
  - split; [apply Forall_nil | discriminate].
  - destruct (handle_event env e st) as [t0 [[st0 q0]| |]] eqn:He.
    + destruct (handle_event_facts _ _ _ _ _ _ He) as (Q0 & _).
      rewrite (bind_ok _ _ _ _ eq_refl). cbn [snd fst trace result].
      destruct q0.
      * cbn. rewrite app_nil_r. split; [assumption | discriminate].
      * destruct (IH st0) as [Q1 E1]. split; [now apply quiet_app | exact E1].
    + now apply handle_event_stops in He.
    + apply handle_event_stops in He. subst. cbn.
      split; [apply Forall_nil | discriminate].
Qed.


(** The navigator loop leaves the process only with status 1, right
    after the title and the diagnostic of a pass that found no path. *)
Lemma navigator_changes_exit fuel : forall st t c,
  navigator_changes fuel st = Some (t, Exit c) ->
  c = 1
  /\ exists t0 title,
       t = t0 ++ [ESetTitle title; EStderr no_input_files_left].
Proof.
  induction fuel as [|fuel IH]; intros st t c; [discriminate|].
  rewrite navigator_changes_unfold; cbv zeta.
  destruct (changed (st_nav st)); [|discriminate].
  rewrite load_current_eq. cbn [st_nav with_nav]. rewrite has_changed_path.
  destruct (imv_navigator_get_current_path (st_nav st)) as [p|].
  - destruct (decode p) as [[f fs]|];
      match goal with
      | |- context [navigator_changes fuel ?s] =>
          destruct (navigator_changes fuel s) as [[t' r]|] eqn:E;
          [|discriminate]
      end;
      intros H; injection H as <- ->;
      destruct (IH _ _ _ E) as (Hc & t0 & title & ->);
      (split; [exact Hc|]).
    + exists ([ESetTitle
                 (loading_title (snd (imv_navigator_has_changed (st_nav st))));
               ELoad p true;
               ESetTitle
                 (loaded_title (snd (imv_navigator_has_changed (st_nav st)))
                    (decoded p f fs) p)] ++ t0), title.
      now rewrite <- app_assoc.
    + exists ([ESetTitle
                 (loading_title (snd (imv_navigator_has_changed (st_nav st))));
               ELoad p false] ++ t0), title.
      now rewrite <- app_assoc.
  - intros H. inversion H; subst. split; [reflexivity|].
    now exists [],
      (loading_title (snd (imv_navigator_has_changed (st_nav st)))).
Qed.

(** *** Painting *)



(** *** Playback *)


(** *** Start-up *)

(** The viewport main.c starts with, and what making it prints. *)
Lemma main_startup_eq argv stdin_text pf t0 o nav p :
  (2 <= List.length argv)%nat ->
  collect_paths argv stdin_text = (t0, Ok (o, nav)) ->
  imv_navigator_get_current_path nav = Some p ->
  sdl_init_error pf = None ->
  texture_fits pf ->
  main_startup argv stdin_text pf
  = (t0 ++ (if truthy (fullscreen o)
            then [ESetFullscreen
                    (negb (view_fullscreen (imv_init_viewport 1280 720)))]
            else []),
     Ok (mk_state (imv_navigator_set_path nav (start_at o)) imv_init_image
           None
           (if truthy (fullscreen o)
            then mk_viewport (window_w (imv_init_viewport 1280 720))
                   (window_h (imv_init_viewport 1280 720))
                   (x (imv_init_viewport 1280 720))
                   (y (imv_init_viewport 1280 720))
                   (scale (imv_init_viewport 1280 720))
                   (playing (imv_init_viewport 1280 720))
                   (negb (view_fullscreen (imv_init_viewport 1280 720)))
                   (redraw (imv_init_viewport 1280 720))
            else imv_init_viewport 1280 720)
           o (seconds (ticks0 pf)) (create_chequered pf))).
Proof.
  intros Hlen Hc Hp Hsdl Hfit. unfold main_startup.
  destruct (List.length argv <? 2)%nat eqn:E;
    [apply Nat.ltb_lt in E; lia|].
  rewrite (bind_ok _ _ _ _ Hc). cbv beta iota. rewrite Hp, Hsdl.
  rewrite (create_chequered_texture_fits _ Hfit).
  destruct (truthy (fullscreen o)); cbn; now rewrite ?app_nil_r.
Qed.

Lemma main_startup_running argv stdin_text pf t st0 :
  main_startup argv stdin_text pf = (t, Ok st0) ->
  exists t0 o nav p,
    collect_paths argv stdin_text = (t0, Ok (o, nav))
    /\ imv_navigator_get_current_path nav = Some p
    /\ st_nav st0 = imv_navigator_set_path nav (start_at o)
    /\ st_opts st0 = o.
Proof.
  unfold main_startup.
  destruct (List.length argv <? 2)%nat; [discriminate|].
  destruct (collect_paths argv stdin_text) as [t0 [[o nav]| |]] eqn:Hc;
    [|discriminate | discriminate].
  rewrite (bind_ok _ _ _ _ eq_refl). cbv beta iota.
  destruct (imv_navigator_get_current_path nav) as [p|] eqn:Hp;
    [|discriminate].
  destruct (sdl_init_error pf); [discriminate|].
  destruct (create_chequered_texture_cases pf) as [-> | ->]; [|discriminate].
  intros H. exists t0, o, nav, p.
  destruct (truthy (fullscreen o)); cbn in H; inversion H; subst; auto.
Qed.

Lemma set_path_paths nav n :
  paths (imv_navigator_set_path nav n) = paths nav.
Proof. unfold imv_navigator_set_path. now destruct (paths nav) eqn:E. Qed.

Lemma current_path_nonempty nav p :
  imv_navigator_get_current_path nav = Some p -> paths nav <> [].
Proof.
  unfold imv_navigator_get_current_path.
  now destruct (paths nav).
Qed.

(** *** Running out of paths *)

(** C2 as amended: with no current path after the arguments and
    stdin, start-up prints "No input files. Exiting." on stderr and
    exits with status 1; in the control loop, an iteration whose
    navigator loop finds no current path left prints "No input files
    left. Exiting." on stderr and exits with status 1; a quit request
    among the same events ends the program before that, with status 0
    and no diagnostic; the loop starts, and goes on, only with a
    current path; and an iteration leaves the process in no other
    way. *)
Theorem C2_no_current_path_is_fatal argv stdin_text pf env st :
  (forall t o nav,
      (2 <= List.length argv)%nat ->
      collect_paths argv stdin_text = (t, Ok (o, nav)) ->
      imv_navigator_get_current_path nav = None ->
      main_startup argv stdin_text pf
      = (t ++ [EStderr ("No input files. Exiting." ++ String "010" "")],
         Exit 1))
  /\ (forall t1 st1,
         has_current st ->
         poll_events env (pending env) st = (t1, Ok (st1, false)) ->
         imv_navigator_get_current_path (st_nav st1) = None ->
         loop_iteration env st
         = (t1 ++ [ESetTitle (loading_title (st_nav st1));
                   EStderr ("No input files left. Exiting."
                            ++ String "010" "")],
            Exit 1))
  /\ (forall t1 st1 rest,
         poll_events env (pending env) st = (t1, Ok (st1, true)) ->
         loop_iteration env st = (t1, Ok (Quit st1))
         /\ main_loop (env :: rest) st = (t1, Exit 0))
  /\ (forall t st',
         has_current st ->
         loop_iteration env st = (t, Ok (Continue st')) ->
         has_current st')
  /\ (forall t st0,
         main_startup argv stdin_text pf = (t, Ok st0) -> has_current st0)
  /\ (forall t c,
         loop_iteration env st = (t, Exit c) ->
         c = 1
         /\ exists t0 title,
              t = t0 ++ [ESetTitle title;
                         EStderr ("No input files left. Exiting."
                                  ++ String "010" "")]).
Proof.
  change ("No input files. Exiting." ++ String "010" "")%string
    with no_input_files.
  change ("No input files left. Exiting." ++ String "010" "")%string
    with no_input_files_left.
  split; [|split; [|split; [|split; [|split]]]].
  - intros t o nav Hlen Hc Hn. unfold main_startup.
    destruct (List.length argv <? 2)%nat eqn:E;
      [apply Nat.ltb_lt in E; lia|].
    rewrite (bind_ok _ _ _ _ Hc). cbv beta iota. now rewrite Hn.
  - intros t1 st1 [Hwf Hne] Hp Hn.
    destruct (poll_events_facts _ _ _ _ _ _ Hp) as (_ & _ & _ & Hinv).
    destruct Hinv as [Hwf1 Hch]; [split; [assumption | tauto]|].
    pose proof (Hch (current_path_none _ Hwf1 Hn)) as Hc1.
    assert (Hd : drain_navigator st1
                 = ([ESetTitle (loading_title (st_nav st1));
                     EStderr no_input_files_left], Exit 1)).
    { unfold drain_navigator, changes_fuel.
      rewrite navigator_changes_unfold; cbv zeta. rewrite Hc1.
      rewrite load_current_eq. cbn [st_nav with_nav].
      rewrite has_changed_path, Hn. reflexivity. }
    unfold loop_iteration.
    rewrite (bind_ok _ _ _ _ Hp). cbv beta iota.
    now rewrite (bind_exit _ _ _ _ Hd).
  - intros t1 st1 rest Hp.
    assert (Hit : loop_iteration env st = (t1, Ok (Quit st1))).
    { unfold loop_iteration. rewrite (bind_ok _ _ _ _ Hp). cbn.
      now rewrite app_nil_r. }
    split; [exact Hit|]. cbn [main_loop]. rewrite Hit. cbn.
    now rewrite app_nil_r.
  - intros t st' [Hwf Hne] H.
    destruct (loop_iteration_continue _ _ _ _ H)
      as (t1 & st1 & t2 & st2 & Hp & Hd).
    destruct (loop_iteration_reaches _ _ _ _ _ _ Hp Hd)
      as (ti & st4 & _ & _ & Hn4 & _ & Heq).
    rewrite Heq in H. inversion H; subst. clear H.
    destruct (poll_events_facts _ _ _ _ _ _ Hp) as (_ & _ & _ & Hinv).
    destruct Hinv as [Hwf1 Hch]; [split; [assumption | tauto]|].
    destruct (drain_navigator_spec st1 Hwf1) as (t' & r' & _ & Hd' & Hpost).
    rewrite Hd in Hd'. inversion Hd'; subst. clear Hd'.
    destruct Hpost as (_ & Hwf2 & _ & _ & Hup & Hdown).
    assert (Hn : st_nav (painted st4) = st_nav st2)
      by (unfold painted; destruct (redraw _); exact Hn4).
    unfold has_current. rewrite Hn. split; [assumption|].
    destruct (changed (st_nav st1)) eqn:Hc.
    + destruct (Hup eq_refl) as (p & Hcur & _).
      now apply current_path_nonempty in Hcur.
    + destruct (Hdown eq_refl) as (Hps & _). rewrite Hps.
      intros Hnil. apply Hch in Hnil. congruence.
  - intros t st0 H.
    destruct (main_startup_running _ _ _ _ _ H)
      as (t0 & o & nav & p & _ & Hcur & Hnav & _).
    unfold has_current. rewrite Hnav. split; [apply set_path_wf|].
    rewrite set_path_paths. now apply current_path_nonempty in Hcur.
  - intros t c. unfold loop_iteration.
    destruct (poll_events_stops env (pending env) st) as [_ Hne].
    destruct (poll_events env (pending env) st) as [t1 [[st1 q]|c'|]] eqn:Hp;
      [| now elim (Hne c') | discriminate].
    rewrite (bind_ok _ _ _ _ eq_refl). cbv beta iota.
    destruct q; [discriminate|].
    destruct (drain_navigator st1) as [t2 [st2| |]] eqn:Hd.
    + destruct (loop_iteration_reaches env st t1 st1 t2 st2 Hp Hd)
        as (ti & st4 & _ & _ & _ & _ & Heq).
      unfold loop_iteration in Heq.
      rewrite (bind_ok _ _ _ _ Hp) in Heq. cbv beta iota in Heq.
      rewrite Hd in Heq. rewrite Heq. discriminate.
    + cbn. intros H. injection H as <- <-.
      unfold drain_navigator in Hd.
      destruct (navigator_changes (changes_fuel st1) st1) as [[t' r']|] eqn:E;
        [|discriminate].
      injection Hd as -> ->.
      destruct (navigator_changes_exit _ _ _ _ E) as (Hc & t0 & title & ->).
      split; [exact Hc|]. exists (t1 ++ t0), title. now rewrite app_assoc.
    + discriminate.
Qed.

(** *** Options *)

Lemma names_path_not_dashes a : names_path a -> String.eqb a "--" = false.
Proof.
  intros [H _]. destruct (String.eqb_spec a "--") as [->|]; [|reflexivity].
  discriminate.
Qed.

Lemma names_path_not_dash a : names_path a -> String.eqb "-" a = false.
Proof.
  intros [_ H]. destruct (String.eqb_spec "-" a) as [<-|]; [|reflexivity].
  now elim H.
Qed.

Lemma getopt_scan_paths files :
  Forall names_path files -> getopt_scan files = ([], files).
Proof.
  induction 1 as [|a files Ha _ IH]; [reflexivity|].
  cbn [getopt_scan]. rewrite (names_path_not_dashes _ Ha).
  destruct Ha as [-> _]. now rewrite IH.
Qed.


Lemma getopt_scan_unknown c rest :
  opt_kind c = NoSuchOpt -> c <> "-"%char ->
  getopt_scan (String "-" (String c "") :: rest)
  = (unknown c :: fst (getopt_scan rest), snd (getopt_scan rest)).
Proof.
  intros Hk Hc. cbn [getopt_scan].
  assert (E : String.eqb (String "-" (String c "")) "--" = false).
  { destruct (String.eqb_spec (String "-" (String c "")) "--") as [E|];
      [|reflexivity].
    injection E as E. now elim Hc. }
  rewrite E. cbn [is_option String.length Nat.sub substring scan_cluster].
  rewrite Hk. now destruct (getopt_scan rest).
Qed.

Lemma parse_n_eq o optarg :
  parse_n o optarg =
  if negb (String.eqb (n_rest optarg) "") || (n_value optarg <=? 0)
  then ([EStderr warn_wrong_n], Ok o)
  else ([], Ok (set_start_at o (n_value optarg - 1))).
Proof.
  unfold parse_n, n_rest, n_value. destruct (C.strtol0 optarg) as [v e].
  cbn [fst snd]. now destruct (negb _ || _).
Qed.


Lemma parse_n_bad o optarg :
  n_rest optarg <> "" \/ n_value optarg <= 0 ->
  parse_n o optarg = ([EStderr warn_wrong_n], Ok o).
Proof.
  intros H. rewrite parse_n_eq.
  destruct (String.eqb_spec (n_rest optarg) ""); cbn; [|reflexivity].
  destruct (n_value optarg <=? 0) eqn:E; [reflexivity|].
  apply Z.leb_gt in E. destruct H; [contradiction | lia].
Qed.

(** C3 as amended: a flag that is not an option makes the program
    print "Unknown argument" and exit with status 1, whatever else is
    on the command line, and so does every '?' that getopt returns; a
    wrong value for -n only prints a warning and the parsing goes on
    with the options as they were. *)
Theorem C3_unknown_flag_aborts_and_bad_n_only_warns :
  (forall argv0 c rest stdin_text pf,
      opt_kind c = NoSuchOpt -> c <> "-"%char ->
      main_startup (argv0 :: String "-" (String c "") :: rest) stdin_text pf
      = ([EStderr (unknown_argument c)], Exit 1))
  /\ (forall name r rs o,
         g_o r = "?"%char ->
         parse_args_loop name (r :: rs) o
         = ([EStderr (unknown_argument (g_optopt r))], Exit 1))
  /\ (forall name r rs o,
         g_o r = "n"%char ->
         n_rest (g_optarg r) <> "" \/ n_value (g_optarg r) <= 0 ->
         parse_args_loop name (r :: rs) o
         = (EStderr warn_wrong_n :: trace (parse_args_loop name rs o),
            result (parse_args_loop name rs o))).
Proof.
  split; [|split].
  - intros argv0 c rest stdin_text pf Hk Hc.
    unfold main_startup, collect_paths, parse_args.
    cbn [List.length Nat.ltb Nat.leb tl hd_error].
    rewrite (getopt_scan_unknown _ _ Hk Hc). reflexivity.
  - intros name r rs o H. cbn [parse_args_loop]. rewrite H. reflexivity.
  - intros name r rs o H Hbad. cbn [parse_args_loop]. rewrite H.
    cbv iota. rewrite (parse_n_bad _ _ Hbad).
    rewrite (bind_ok _ _ _ _ eq_refl). reflexivity.
Qed.

(** *** Paths from the command line *)

Lemma add_operands_paths files : forall o nav,
  Forall names_path files -> recursive o = 0 ->
  add_operands files o nav
  = (o, fold_left imv_navigator_add_path files nav).
Proof.
  induction files as [|a files IH]; intros o nav Hf Hr; [reflexivity|].
  inversion Hf as [|? ? Ha Hf']; subst.
  cbn [add_operands fold_left]. rewrite (names_path_not_dash _ Ha).
  rewrite (IH _ _ Hf' Hr). unfold add_input. now rewrite Hr.
Qed.




Lemma collect_paths_plain argv0 files stdin_text :
  Forall names_path files ->
  collect_paths (argv0 :: files) stdin_text
  = ([], Ok (g_options,
             fold_left imv_navigator_add_path files imv_init_navigator)).
Proof.
  intros Hf. unfold collect_paths, parse_args. cbn [tl hd_error].
  rewrite (getopt_scan_paths _ Hf). cbn [parse_args_loop].
  cbn [bind ret app fst snd].
  now rewrite (add_operands_paths _ g_options _ Hf eq_refl).
Qed.


(** *** Decimal numerals as strtol reads them *)









(** *** A first path that does not decode *)

Lemma drain_skips_first A B f fs st :
  st_nav st = mk_navigator [A; B] 0 true ->
  decode A = None -> decode B = Some (f, fs) ->
  exists t st',
    drain_navigator st = (t, Ok st')
    /\ st_nav st' = mk_navigator [B] 0 false.
Proof.
  intros Hnav HA HB.
  unfold drain_navigator, changes_fuel. rewrite Hnav.
  cbn [paths List.length].
  rewrite navigator_changes_unfold; cbv zeta. rewrite Hnav.
  cbn [changed paths cur_path imv_navigator_has_changed snd].
  rewrite load_current_eq. cbn [st_nav with_nav].
  change (imv_navigator_get_current_path (mk_navigator [A; B] 0 false))
    with (Some A).
  cbv beta iota. rewrite HA.
  set (st1 := apply_actual _).
  assert (H1 : st_nav st1 = mk_navigator [B] 0 true)
    by (unfold st1; rewrite apply_actual_nav; reflexivity).
  rewrite navigator_changes_unfold; cbv zeta. rewrite H1.
  cbn [changed paths cur_path imv_navigator_has_changed snd].
  rewrite load_current_eq. cbn [st_nav with_nav].
  change (imv_navigator_get_current_path (mk_navigator [B] 0 false))
    with (Some B).
  cbv beta iota. rewrite HB.
  set (st2 := apply_actual _).
  assert (H2 : st_nav st2 = mk_navigator [B] 0 false)
    by (unfold st2; rewrite apply_actual_nav; reflexivity).
  rewrite navigator_changes_unfold; cbv zeta. rewrite H2.
  cbn [changed paths cur_path imv_navigator_has_changed snd].
  eexists; eexists; split; [reflexivity|]. reflexivity.
Qed.

(** C7: started on the paths [A; B], where A does not decode and B
    does, on a platform where SDL starts and the chequered texture
    fits its buffer, the program is, after its first pass through the
    control loop with no event pending, on B, and B is the only path
    left. *)
Theorem C7_undecodable_first_path_is_dropped argv0 A B stdin_text pf env :
  names_path A -> names_path B ->
  decode A = None -> decode B <> None ->
  sdl_init_error pf = None -> texture_fits pf -> pending env = [] ->
  exists t st,
    main [argv0; A; B] stdin_text pf [env] = (t, Ok st)
    /\ imv_navigator_get_current_path (st_nav st) = Some B
    /\ paths (st_nav st) = [B]
    /\ num_paths (st_nav st) = 1.
Proof.
  intros HnA HnB HA HB Hsdl Hfit Hev.
  destruct (decode B) as [[f fs]|] eqn:HdB; [clear HB | now elim HB].
  assert (Hne : B <> A) by congruence.
  pose proof (collect_paths_plain argv0 [A; B] stdin_text
                (Forall_cons _ HnA (Forall_cons _ HnB (Forall_nil _)))) as Hc.
  assert (Hnav : fold_left imv_navigator_add_path [A; B] imv_init_navigator
                 = mk_navigator [A; B] 0 true).
  { cbn [fold_left].
    change (imv_navigator_add_path imv_init_navigator A)
      with (mk_navigator [A] 0 true).
    unfold imv_navigator_add_path. cbn [paths].
    destruct (in_dec string_dec B [A]) as [[E|[]]|_]; [now elim Hne|].
    reflexivity. }
  rewrite Hnav in Hc.
  assert (Hargc : (2 <= List.length [argv0; A; B])%nat) by (cbn; lia).
  pose proof (main_startup_eq _ _ pf _ _ _ A Hargc Hc eq_refl Hsdl Hfit)
    as Hs.
  cbn [fullscreen g_options truthy Z.eqb negb start_at] in Hs.
  rewrite app_nil_r in Hs.
  set (st0 := mk_state _ _ _ _ _ _ _) in Hs.
  assert (Hp : poll_events env (pending env) st0 = ([], Ok (st0, false)))
    by (now rewrite Hev).
  destruct (drain_skips_first A B f fs st0 eq_refl HA HdB)
    as (t2 & st2 & Hd & Hn2).
  destruct (loop_iteration_reaches _ _ _ _ _ _ Hp Hd)
    as (ti & st4 & _ & _ & Hn4 & _ & Hit).
  unfold main. rewrite (bind_ok _ _ _ _ Hs). cbn [main_loop].
  rewrite (bind_ok _ _ _ _ Hit). cbn [trace result fst snd ret].
  eexists; eexists; split; [reflexivity|].
  assert (Hn : st_nav (painted st4) = mk_navigator [B] 0 false).
  { unfold painted. destruct (redraw _); cbn [st_nav with_view]; congruence. }
  rewrite Hn. repeat split.
Qed.

(** *** Paths from stdin *)

Lemma app_string_assoc (a b c : string) :
  ((a ++ b) ++ c = a ++ b ++ c)%string.
Proof. induction a as [|x a IH]; cbn; [reflexivity | now rewrite IH]. Qed.

Lemma fgets_line l : forall room cur rest,
  clean l = true -> (String.length l < room)%nat ->
  fgets_all room cur (l ++ C.nl ++ rest)%string
  = (cur ++ l ++ C.nl)%string :: fgets_all (BUF_SIZE - 1) "" rest.
Proof.
  induction l as [|c l IH]; intros room cur rest Hc Hlen.
  - reflexivity.
  - cbn [clean] in Hc. apply andb_prop in Hc as [Hc Hl].
    apply andb_prop in Hc as [_ Hnl]. apply negb_true_iff in Hnl.
    cbn [String.length] in Hlen.
    cbn [append fgets_all]. rewrite Hnl.
    destruct (room =? 1)%nat eqn:E; [apply Nat.eqb_eq in E; lia|].
    cbn [orb]. rewrite IH by (assumption || lia).
    now rewrite app_string_assoc.
Qed.

Lemma fgets_all_text lines :
  Forall text_line lines ->
  fgets_all (BUF_SIZE - 1) "" (text_of lines)
  = map (fun l => (l ++ C.nl)%string) lines.
Proof.
  induction 1 as [|l lines [Hc Hlen] _ IH]; [reflexivity|].
  cbn [text_of map].
  rewrite fgets_line; [|assumption|unfold BUF_SIZE in *; lia].
  now rewrite IH.
Qed.

Lemma c_str_line l : clean l = true -> c_str (l ++ C.nl) = (l ++ C.nl)%string.
Proof.
  induction l as [|c l IH]; intros Hc; [reflexivity|].
  cbn [clean] in Hc. apply andb_prop in Hc as [Hc Hl].
  apply andb_prop in Hc as [Hz _]. apply negb_true_iff in Hz.
  cbn [append c_str]. now rewrite Hz, IH.
Qed.

Lemma length_line l : String.length (l ++ C.nl) = S (String.length l).
Proof. induction l as [|c l IH]; cbn; [reflexivity | now rewrite IH]. Qed.

Lemma get_line_end l : String.get (String.length l) (l ++ C.nl) = Some newline.
Proof. induction l as [|c l IH]; cbn; [reflexivity | exact IH]. Qed.

Lemma substring_line l : substring 0 (String.length l) (l ++ C.nl) = l.
Proof. induction l as [|c l IH]; cbn; [reflexivity | now rewrite IH]. Qed.

Lemma read_line_text o nav l :
  clean l = true ->
  read_line o nav (l ++ C.nl)
  = ret (if not_empty l then add_input o nav l else nav).
Proof.
  intros Hc. unfold read_line. rewrite (c_str_line _ Hc), length_line.
  rewrite get_line_end.
  change (Ascii.eqb newline newline) with true. cbv iota.
  rewrite substring_line. unfold not_empty.
  now destruct (0 <? String.length l)%nat.
Qed.

Lemma read_lines_text o lines : forall nav,
  Forall text_line lines ->
  read_lines (map (fun l => (l ++ C.nl)%string) lines) o nav
  = ret (fold_left (add_input o) (filter not_empty lines) nav).
Proof.
  induction lines as [|l lines IH]; intros nav Hf; [reflexivity|].
  inversion Hf as [|? ? [Hc _] Hf']; subst.
  cbn [map read_lines filter]. rewrite (read_line_text _ _ _ Hc).
  unfold ret at 1. rewrite (bind_ok _ _ _ _ eq_refl). rewrite (IH _ Hf').
  now destruct (not_empty l).
Qed.

Lemma c_str_no_nul s : no_nul s = true -> c_str s = s.
Proof.
  induction s as [|c s IH]; intros H; [reflexivity|].
  cbn [no_nul] in H. apply andb_prop in H as [Hc Hs].
  apply negb_true_iff in Hc. cbn [c_str]. now rewrite Hc, IH.
Qed.

Lemma no_nul_app a b :
  no_nul a = true -> no_nul b = true -> no_nul (a ++ b) = true.
Proof.
  induction a as [|c a IH]; intros Ha Hb; [exact Hb|].
  cbn [no_nul append] in *. apply andb_prop in Ha as [Hc Ha].
  now rewrite Hc, IH.
Qed.

Lemma length_substring k : forall s,
  (k <= String.length s)%nat -> String.length (substring 0 k s) = k.
Proof.
  induction k as [|k IH]; intros s H; [now destruct s|].
  destruct s as [|c s]; cbn in *; [lia|]. rewrite IH; lia.
Qed.

Lemma read_line_eq o nav chunk :
  no_nul chunk = true -> chunk <> "" ->
  read_line o nav chunk
  = ret (if not_empty (strip_newline chunk)
         then add_input o nav (strip_newline chunk) else nav).
Proof.
  intros Hn Hne. unfold read_line, strip_newline, not_empty.
  rewrite (c_str_no_nul _ Hn).
  destruct (String.length chunk) as [|k] eqn:El;
    [destruct chunk; [now elim Hne | discriminate]|].
  destruct (String.get k chunk) as [c|]; [|now rewrite El].
  destruct (Ascii.eqb c newline); [|now rewrite El].
  rewrite length_substring by lia. now destruct (0 <? k)%nat.
Qed.

Lemma fgets_all_chunks s : forall room cur,
  no_nul s = true -> no_nul cur = true ->
  Forall (fun c => no_nul c = true /\ c <> "") (fgets_all room cur s).
Proof.
  induction s as [|c s IH]; intros room cur Hs Hc; cbn [fgets_all].
  - destruct cur; constructor; [split; [assumption | discriminate]|constructor].
  - cbn [no_nul] in Hs. apply andb_prop in Hs as [Hz Hs].
    assert (Hc' : no_nul (cur ++ String c "") = true)
      by (apply no_nul_app; [assumption | cbn; now rewrite Hz]).
    destruct (Ascii.eqb c newline || (room =? 1)%nat).
    + constructor; [|now apply IH].
      split; [assumption|]. now destruct cur.
    + now apply IH.
Qed.

Lemma read_lines_eq o chunks : forall nav,
  Forall (fun c => no_nul c = true /\ c <> "") chunks ->
  read_lines chunks o nav
  = ret (fold_left (add_input o)
           (filter not_empty (map strip_newline chunks)) nav).
Proof.
  induction chunks as [|c chunks IH]; intros nav Hf; [reflexivity|].
  inversion Hf as [|? ? [Hn Hne] Hf']; subst.
  cbn [map read_lines filter]. rewrite (read_line_eq _ _ _ Hn Hne).
  unfold ret at 1. rewrite (bind_ok _ _ _ _ eq_refl). rewrite (IH _ Hf').
  now destruct (not_empty (strip_newline c)).
Qed.

Lemma add_operands_eq operands : forall o nav,
  add_operands operands o nav
  = (if existsb (String.eqb "-") operands then set_stdin o 1 else o,
     fold_left (add_input o) (filter not_dash operands) nav).
Proof.
  induction operands as [|a operands IH]; intros o nav; [reflexivity|].
  cbn [add_operands existsb filter]. unfold not_dash at 1.
  destruct (String.eqb "-" a); cbn [negb orb fold_left].
  - rewrite IH. now destruct (existsb _ operands).
  - now rewrite IH.
Qed.

Lemma fold_add_path_from l : forall nav p,
  In p (paths (fold_left imv_navigator_add_path l nav)) ->
  In p (paths nav) \/ In p l.
Proof.
  induction l as [|a l IH]; intros nav p H; [now left|].
  cbn [fold_left] in H. apply IH in H. destruct H as [H|H]; [|right; now right].
  unfold imv_navigator_add_path in H.
  destruct (in_dec string_dec a (paths nav)); [now left|].
  destruct (paths nav) as [|b ps] eqn:E; cbn [paths] in H.
  - destruct H as [<-|[]]. right. now left.
  - apply in_app_or in H. destruct H as [H|[<-|[]]]; [now left|].
    right. now left.
Qed.

(** C10 as amended: when "-" is among the operands getopt leaves (a
    "-" taken as the argument of -n is not one), reading from stdin is
    switched on and stdin is read after the operands; the paths handed
    to the navigator from the command line are the operands other
    than "-", so "-" is not among them; from stdin without NUL
    characters every piece that one fgets takes gives, without its
    newline, one path unless it is empty, which for lines of at most
    510 characters, each closed by a newline, is one path per line,
    none for an empty line. *)
Theorem C10_dash_reads_stdin_and_is_no_path argv stdin_text t o operands :
  parse_args argv g_options = (t, Ok (o, operands)) ->
  In "-" operands ->
  let inputs := filter not_dash operands in
  let nav := fold_left (add_input o) inputs imv_init_navigator in
  add_operands operands o imv_init_navigator = (set_stdin o 1, nav)
  /\ ~ In "-" inputs
  /\ (recursive o = 0 -> ~ In "-" (paths nav))
  /\ collect_paths argv stdin_text
     = (_ <- (t, Ok tt) ;;
        nav' <- read_stdin stdin_text (set_stdin o 1) nav ;;
        ret (set_stdin o 1, nav'))
  /\ (forall text nav0,
         no_nul text = true ->
         read_stdin text (set_stdin o 1) nav0
         = ret (fold_left (add_input o)
                  (filter not_empty
                     (map strip_newline (fgets_all (BUF_SIZE - 1) "" text)))
                  nav0))
  /\ (forall lines nav0,
         Forall text_line lines ->
         read_stdin (text_of lines) (set_stdin o 1) nav0
         = ret (fold_left (add_input o) (filter not_empty lines) nav0)).
Proof.
  intros Hp Hin inputs nav.
  assert (Hex : existsb (String.eqb "-") operands = true).
  { apply existsb_exists. exists "-". split; [assumption|].
    apply String.eqb_refl. }
  assert (Hops : add_operands operands o imv_init_navigator
                 = (set_stdin o 1, nav))
    by (rewrite add_operands_eq, Hex; reflexivity).
  assert (Hno : ~ In "-" inputs).
  { unfold inputs. intros H. apply filter_In in H as [_ H].
    unfold not_dash in H. now rewrite String.eqb_refl in H. }
  split; [exact Hops|]. split; [exact Hno|]. split; [|split; [|split]].
  - intros Hr H. unfold nav in H.
    assert (E : fold_left (add_input o) inputs imv_init_navigator
                = fold_left imv_navigator_add_path inputs imv_init_navigator).
    { clear -Hr. generalize imv_init_navigator.
      induction inputs as [|a l IH]; intros n; [reflexivity|].
      cbn [fold_left]. rewrite <- IH. unfold add_input. now rewrite Hr. }
    rewrite E in H. apply fold_add_path_from in H.
    destruct H as [[]|H]. now apply Hno.
  - unfold collect_paths. rewrite (bind_ok _ _ _ _ Hp).
    cbn [fst snd trace result]. rewrite Hops.
    cbn [stdin set_stdin truthy Z.eqb negb bind].
    destruct (read_stdin stdin_text (set_stdin o 1) nav) as [t' [nav'| |]];
      cbn; now rewrite ?app_nil_r.
  - intros text nav0 Hn. unfold read_stdin.
    rewrite (read_lines_eq (set_stdin o 1) _ nav0
               (fgets_all_chunks text _ "" Hn eq_refl)).
    reflexivity.
  - intros lines nav0 Hf. unfold read_stdin.
    rewrite (fgets_all_text _ Hf).
    rewrite (read_lines_text (set_stdin o 1) _ _ Hf). reflexivity.
Qed.

(** *** The chequered background *)

Lemma steps_inv limit step v :
  0 < step -> In v (steps limit step) ->
  exists k, 0 <= k /\ v = k * step /\ v < limit.
Proof.
  intros Hs Hin. unfold steps in Hin. apply in_map_iff in Hin.
  destruct Hin as (k & <- & Hk). apply in_seq in Hk.
  exists (Z.of_nat k). split; [lia|]. split; [reflexivity|].
  assert (H0 : 0 < (limit + step - 1) / step) by lia.
  assert (Hq : Z.of_nat k + 1 <= (limit + step - 1) / step) by lia.
  pose proof (Z.mul_div_le (limit + step - 1) step Hs). nia.
Qed.

(** X4: the chequered background is laid out without gap or overlap:
    every tile has the size of the chequered texture and starts inside
    the window at a multiple of that size, every pixel of the window
    lies in the tile drawn at its own multiple, and in no tile drawn
    anywhere else. *)
Theorem X4_background_tiles_cover_window env st px py :
  truthy (solid_bg (st_opts st)) = false ->
  0 < fst (st_chequered st) -> 0 < snd (st_chequered st) ->
  0 <= px < win_w env -> 0 <= py < win_h env ->
  let iw := fst (st_chequered st) in
  let ih := snd (st_chequered st) in
  In (ERenderCopy (px / iw * iw) (py / ih * ih) iw ih)
     (draw_background env st)
  /\ px / iw * iw <= px < px / iw * iw + iw
  /\ py / ih * ih <= py < py / ih * ih + ih
  /\ forall e, In e (draw_background env st) ->
       exists x y,
         e = ERenderCopy x y iw ih
         /\ 0 <= x < win_w env /\ 0 <= y < win_h env
         /\ (x <= px < x + iw -> y <= py < y + ih ->
             x = px / iw * iw /\ y = py / ih * ih).
Proof.
  intros Hbg Hw Hh Hx Hy iw ih. unfold draw_background. rewrite Hbg.
  destruct (st_chequered st) as [w h]. cbn [fst snd] in *.
  subst iw ih.
  pose proof (Z.div_mod px w ltac:(lia)) as Dx.
  pose proof (Z.mod_pos_bound px w Hw) as Bx.
  pose proof (Z.div_mod py h ltac:(lia)) as Dy.
  pose proof (Z.mod_pos_bound py h Hh) as By.
  assert (Qx : 0 <= px / w) by (apply Z.div_pos; lia).
  assert (Qy : 0 <= py / h) by (apply Z.div_pos; lia).
  split; [|split; [nia|split; [nia|]]].
  - apply in_flat_map. exists (py / h * h).
    split; [apply in_steps; nia|].
    apply in_map_iff. exists (px / w * w).
    split; [reflexivity | apply in_steps; nia].
  - intros e He. apply in_flat_map in He. destruct He as (y & Hyin & He).
    apply in_map_iff in He. destruct He as (x & <- & Hxin).
    apply (steps_inv _ _ _ Hw) in Hxin. destruct Hxin as (kx & Hkx & -> & Lx).
    apply (steps_inv _ _ _ Hh) in Hyin. destruct Hyin as (ky & Hky & -> & Ly).
    exists (kx * w), (ky * h). split; [reflexivity|].
    split; [nia|]. split; [nia|].
    intros Cx Cy.
    assert (kx = px / w) by (apply Z.div_unique with (px - kx * w); lia).
    assert (ky = py / h) by (apply Z.div_unique with (py - ky * h); lia).
    now subst.
Qed.

(** *** The options after parse_args *)

Lemma parse_args_loop_step name r rs o :
  parse_args_loop name (r :: rs) o
  = if Ascii.eqb (g_o r) "f" then parse_args_loop name rs (set_fullscreen o 1)
    else if Ascii.eqb (g_o r) "i" then
      fprintf_stderr warn_deprecated_i ;;;
      parse_args_loop name rs (set_stdin o 1)
    else if Ascii.eqb (g_o r) "r" then
      parse_args_loop name rs (set_recursive o 1)
    else if Ascii.eqb (g_o r) "a" then parse_args_loop name rs (set_actual o 1)
    else if Ascii.eqb (g_o r) "h" then print_usage name ;;; exit 0
    else if Ascii.eqb (g_o r) "n" then
      o' <- parse_n o (g_optarg r) ;; parse_args_loop name rs o'
    else if Ascii.eqb (g_o r) "?" then
      fprintf_stderr (unknown_argument (g_optopt r)) ;;; exit 1
    else parse_args_loop name rs o.
Proof.
  cbn [parse_args_loop].
  destruct (g_o r) as [[] [] [] [] [] [] [] []]; reflexivity.
Qed.

Lemma to_int_range z : C.INT_MIN <= C.to_int z <= C.INT_MAX.
Proof.
  unfold C.to_int, C.INT_MIN, C.INT_MAX.
  pose proof (Z.mod_pos_bound (z + 2 ^ 31) (2 ^ 32) ltac:(lia)). lia.
Qed.

Lemma parse_n_options o optarg t o' :
  options_ok o -> parse_n o optarg = (t, Ok o') ->
  options_ok o' /\ Forall is_warning t
  /\ fullscreen o' = fullscreen o /\ stdin o' = stdin o
  /\ recursive o' = recursive o /\ actual o' = actual o.
Proof.
  intros Hok. rewrite parse_n_eq.
  destruct (negb _ || _) eqn:E; intros H; inversion H; subst; clear H.
  - split; [assumption|]. split; [|auto].
    constructor; [now right | constructor].
  - split; [|split; [constructor | auto]].
    apply orb_false_elim in E as [_ E]. apply Z.leb_gt in E.
    pose proof (to_int_range (fst (C.strtol0 optarg))) as R.
    fold (n_value optarg) in R.
    destruct Hok as (H1 & H2 & H3 & H4 & H5 & H6).
    unfold options_ok. cbn [set_start_at fullscreen stdin recursive actual
                             start_at solid_bg].
    repeat (split; [assumption|]). split; [lia | assumption].
Qed.

Lemma parse_args_loop_options name rs : forall o t o',
  options_ok o -> parse_args_loop name rs o = (t, Ok o') ->
  options_ok o' /\ Forall is_warning t
  /\ (fullscreen o = 1 -> fullscreen o' = 1)
  /\ (stdin o = 1 -> stdin o' = 1)
  /\ (recursive o = 1 -> recursive o' = 1)
  /\ (actual o = 1 -> actual o' = 1).
Proof.
  induction rs as [|r rs IH]; intros o t o' Hok.
  - intros H. inversion H; subst. split; [assumption|].
    split; [constructor | auto].
  - rewrite parse_args_loop_step.
    destruct Hok as (H1 & H2 & H3 & H4 & H5 & H6).
    destruct (Ascii.eqb (g_o r) "f").
    { intros H. apply IH in H;
        [|unfold options_ok; cbn; repeat (split; try assumption); now right].
      cbn in H. destruct H as (E1 & E2 & E3 & E4 & E5 & E6).
      split; [exact E1|]. split; [exact E2|]. repeat split; auto. }
    destruct (Ascii.eqb (g_o r) "i").
    { destruct (parse_args_loop name rs (set_stdin o 1)) as [t1 r1] eqn:E.
      cbn. intros H. inversion H; subst. clear H.
      apply IH in E;
        [|unfold options_ok; cbn; repeat (split; try assumption); now right].
      cbn in E. destruct E as (E1 & E2 & E3 & E4 & E5 & E6).
      split; [assumption|]. split; [constructor; [now left | assumption]|].
      repeat split; auto. }
    destruct (Ascii.eqb (g_o r) "r").
    { intros H. apply IH in H;
        [|unfold options_ok; cbn; repeat (split; try assumption); now right].
      cbn in H. destruct H as (E1 & E2 & E3 & E4 & E5 & E6).
      split; [exact E1|]. split; [exact E2|]. repeat split; auto. }
    destruct (Ascii.eqb (g_o r) "a").
    { intros H. apply IH in H;
        [|unfold options_ok; cbn; repeat (split; try assumption); now right].
      cbn in H. destruct H as (E1 & E2 & E3 & E4 & E5 & E6).
      split; [exact E1|]. split; [exact E2|]. repeat split; auto. }
    destruct (Ascii.eqb (g_o r) "h"); [discriminate|].
    destruct (Ascii.eqb (g_o r) "n").
    { destruct (parse_n o (g_optarg r)) as [t1 [o1| |]] eqn:En;
        [|discriminate | discriminate].
      rewrite (bind_ok _ _ _ _ eq_refl).
      destruct (parse_args_loop name rs o1) as [t2 r2] eqn:E.
      intros H. inversion H; subst. clear H.
      apply parse_n_options in En;
        [|unfold options_ok; repeat (split; try assumption)].
      destruct En as (N1 & N2 & N3 & N4 & N5 & N6).
      apply IH in E; [|assumption].
      destruct E as (E1 & E2 & E3 & E4 & E5 & E6).
      split; [assumption|]. split; [now apply Forall_app|].
      rewrite N3, N4, N5, N6 in *. auto. }
    destruct (Ascii.eqb (g_o r) "?"); [discriminate|].
    intros H. apply IH in H; [assumption|].
    unfold options_ok; repeat (split; try assumption).
Qed.

Lemma g_options_ok : options_ok g_options.
Proof.
  unfold options_ok, flag_value, C.INT_MAX. cbn.
  repeat split; try (now left); lia.
Qed.

Lemma add_operands_options operands : forall o nav,
  options_ok o ->
  options_ok (fst (add_operands operands o nav))
  /\ (stdin (fst (add_operands operands o nav)) = 0 -> stdin o = 0)
  /\ fullscreen (fst (add_operands operands o nav)) = fullscreen o
  /\ recursive (fst (add_operands operands o nav)) = recursive o
  /\ actual (fst (add_operands operands o nav)) = actual o
  /\ start_at (fst (add_operands operands o nav)) = start_at o.
Proof.
  intros o nav Hok. rewrite add_operands_eq. cbn [fst].
  destruct (existsb _ operands); [|auto 10].
  destruct Hok as (H1 & H2 & H3 & H4 & H5 & H6).
  unfold options_ok. cbn. repeat (split; try assumption); try now right.
  discriminate.
Qed.

Lemma collect_paths_running argv stdin_text t o nav :
  collect_paths argv stdin_text = (t, Ok (o, nav)) ->
  exists t0 o0 operands,
    parse_args argv g_options = (t0, Ok (o0, operands))
    /\ o = fst (add_operands operands o0 imv_init_navigator).
Proof.
  unfold collect_paths.
  destruct (parse_args argv g_options) as [t0 [[o0 operands]| |]] eqn:Hp;
    [|discriminate | discriminate].
  rewrite (bind_ok _ _ _ _ eq_refl). cbn [fst snd].
  destruct (add_operands operands o0 imv_init_navigator) as [o1 nav1] eqn:Ha.
  intros H. exists t0, o0, operands. split; [reflexivity|].
  rewrite Ha. cbn [fst].
  destruct (truthy (stdin o1)).
  - destruct (read_stdin stdin_text o1 nav1) as [t1 [nav2| |]];
      cbn in H; inversion H; reflexivity.
  - cbn in H. inversion H; reflexivity.
Qed.

Lemma parse_args_running argv o t o' operands :
  parse_args argv o = (t, Ok (o', operands)) ->
  parse_args_loop (C.fmt_str (hd_error argv)) (fst (getopt_scan (tl argv))) o
  = (t, Ok o')
  /\ operands = snd (getopt_scan (tl argv)).
Proof.
  unfold parse_args. destruct (getopt_scan (tl argv)) as [rs ops]. cbn [fst snd].
  destruct (parse_args_loop _ rs o) as [t0 [o0| |]];
    cbn; intros H; inversion H; subst.
  now rewrite app_nil_r.
Qed.

Lemma collect_paths_options argv stdin_text t o nav :
  collect_paths argv stdin_text = (t, Ok (o, nav)) -> options_ok o.
Proof.
  intros H. apply collect_paths_running in H.
  destruct H as (t0 & o0 & operands & Hp & ->).
  apply parse_args_running in Hp as [Hp _].
  apply parse_args_loop_options in Hp; [|exact g_options_ok].
  now apply add_operands_options.
Qed.

(** X5: whatever the command line and stdin, the options main goes on
    with hold 0 or 1 in each of fullscreen, stdin, recursive and actual,
    a start index between 0 and INT_MAX - 1 (so [n - 1] never leaves
    the range of int and the index is never negative), and no solid
    background; the operand loop changes none of them but stdin, which
    it can only raise; and a parse_args that returns has written
    nothing but its two warnings. *)
Theorem X5_options_stay_in_range argv t o operands :
  parse_args argv g_options = (t, Ok (o, operands)) ->
  options_ok o /\ Forall is_warning t
  /\ forall stdin_text t' o' nav,
       collect_paths argv stdin_text = (t', Ok (o', nav)) ->
       options_ok o'
       /\ fullscreen o' = fullscreen o /\ recursive o' = recursive o
       /\ actual o' = actual o /\ start_at o' = start_at o
       /\ (stdin o = 1 -> stdin o' = 1).
Proof.
  intros Hp. pose proof Hp as Hp'.
  apply parse_args_running in Hp' as [Hl ->].
  apply parse_args_loop_options in Hl; [|exact g_options_ok].
  destruct Hl as (Hok & Hw & _).
  split; [assumption|]. split; [assumption|].
  intros stdin_text t' o' nav Hc.
  apply collect_paths_running in Hc.
  destruct Hc as (t0 & o0 & operands & Hp0 & ->).
  rewrite Hp in Hp0. inversion Hp0; subst.
  destruct (add_operands_options (snd (getopt_scan (tl argv))) o0
              imv_init_navigator Hok) as (A1 & A2 & A3 & A4 & A5 & A6).
  split; [assumption|]. repeat (split; [assumption|]).
  intros Hs. destruct A1 as (_ & [E|E] & _); [|exact E].
  apply A2 in E. lia.
Qed.

Lemma parse_n_runs o optarg :
  exists t o', parse_n o optarg = (t, Ok o').
Proof. rewrite parse_n_eq. destruct (negb _ || _); eauto. Qed.

(** X6: parse_args handles the return values of getopt up to the first
    'h' or '?' and never looks at what follows: the values before it
    are processed (with their warnings), then 'h' prints the usage text
    on stdout and exits with status 0 and '?' prints "Unknown
    argument" on stderr and exits with status 1; without 'h' and '?'
    parse_args returns. *)
Theorem X6_parse_args_stops_at_first_h_or_unknown name rs1 o :
  Forall (fun r => stops r = false) rs1 ->
  exists t o',
    parse_args_loop name rs1 o = (t, Ok o')
    /\ forall r rs2,
         stops r = true ->
         parse_args_loop name (rs1 ++ r :: rs2) o
         = if Ascii.eqb (g_o r) "h"
           then (t ++ trace (print_usage name), Exit 0)
           else (t ++ [EStderr (unknown_argument (g_optopt r))], Exit 1).
Proof.
  intros Hf. revert o.
  induction Hf as [|r1 rs1 Hr _ IH]; intros o.
  - exists [], o. split; [reflexivity|].
    intros r rs2 Hs. cbn [app]. rewrite parse_args_loop_step.
    unfold stops in Hs.
    destruct (Ascii.eqb_spec (g_o r) "f") as [E|_];
      [rewrite E in Hs; discriminate|].
    destruct (Ascii.eqb_spec (g_o r) "i") as [E|_];
      [rewrite E in Hs; discriminate|].
    destruct (Ascii.eqb_spec (g_o r) "r") as [E|_];
      [rewrite E in Hs; discriminate|].
    destruct (Ascii.eqb_spec (g_o r) "a") as [E|_];
      [rewrite E in Hs; discriminate|].
    destruct (Ascii.eqb (g_o r) "h"); [reflexivity|].
    destruct (Ascii.eqb_spec (g_o r) "n") as [E|_];
      [rewrite E in Hs; discriminate|].
    cbn [orb] in Hs. rewrite Hs. reflexivity.
  - unfold stops in Hr. apply orb_false_elim in Hr as [Hh Hq].
    cbn [app]. setoid_rewrite parse_args_loop_step. rewrite Hh, Hq.
    destruct (Ascii.eqb (g_o r1) "f"); [apply IH|].
    destruct (Ascii.eqb (g_o r1) "i").
    { destruct (IH (set_stdin o 1)) as (t & o' & E & Hstop).
      exists (EStderr warn_deprecated_i :: t), o'.
      split; [now rewrite E|].
      intros r rs2 Hs. rewrite (Hstop r rs2 Hs).
      now destruct (Ascii.eqb (g_o r) "h"). }
    destruct (Ascii.eqb (g_o r1) "r"); [apply IH|].
    destruct (Ascii.eqb (g_o r1) "a"); [apply IH|].
    destruct (Ascii.eqb (g_o r1) "n"); [|apply IH].
    destruct (parse_n_runs o (g_optarg r1)) as (t1 & o1 & En).
    destruct (IH o1) as (t & o' & E & Hstop).
    exists (t1 ++ t), o'. rewrite En.
    split; [rewrite (bind_ok _ _ _ _ eq_refl); now rewrite E|].
    intros r rs2 Hs. rewrite (bind_ok _ _ _ _ eq_refl), (Hstop r rs2 Hs).
    destruct (Ascii.eqb (g_o r) "h"); cbn [trace result fst snd];
      now rewrite app_assoc.
Qed.

(** *** -i and "-" *)

Lemma bind_after_event {A B} e (m1 m2 : M A) (f : A -> M B) :
  m1 = after_event e m2 -> bind m1 f = after_event e (bind m2 f).
Proof.
  intros ->. unfold after_event. destruct m2 as [t [a| |]]; cbn.
  - now destruct (f a).
  - reflexivity.
  - reflexivity.
Qed.

Lemma parse_args_loop_stdin name rs : forall o,
  parse_args_loop name rs (set_stdin o 1)
  = (trace (parse_args_loop name rs o),
     match result (parse_args_loop name rs o) with
     | Ok o' => Ok (set_stdin o' 1)
     | Exit c => Exit c
     | Undefined => Undefined
     end).
Proof.
  induction rs as [|r rs IH]; intros o; [reflexivity|].
  rewrite !parse_args_loop_step.
  destruct (Ascii.eqb (g_o r) "f"); [apply (IH (set_fullscreen o 1))|].
  destruct (Ascii.eqb (g_o r) "i").
  { change (set_stdin (set_stdin o 1) 1) with (set_stdin o 1).
    cbn. rewrite IH.
    now destruct (parse_args_loop name rs o) as [t [o'| |]]. }
  destruct (Ascii.eqb (g_o r) "r"); [apply (IH (set_recursive o 1))|].
  destruct (Ascii.eqb (g_o r) "a"); [apply (IH (set_actual o 1))|].
  destruct (Ascii.eqb (g_o r) "h"); [reflexivity|].
  destruct (Ascii.eqb (g_o r) "n").
  { rewrite !parse_n_eq.
    destruct (negb _ || _); rewrite !(bind_ok _ _ _ _ eq_refl).
    - rewrite IH. reflexivity.
    - change (set_start_at (set_stdin o 1) (n_value (g_optarg r) - 1))
        with (set_stdin (set_start_at o (n_value (g_optarg r) - 1)) 1).
      rewrite IH. reflexivity. }
  destruct (Ascii.eqb (g_o r) "?"); [reflexivity|].
  apply IH.
Qed.

Lemma collect_paths_i argv0 rest stdin_text :
  collect_paths (argv0 :: "-i" :: rest) stdin_text
  = after_event (EStderr warn_deprecated_i)
      (collect_paths (argv0 :: "-" :: rest) stdin_text).
Proof.
  unfold collect_paths, parse_args. cbn [tl hd_error getopt_scan].
  change (String.eqb "-i" "--") with false.
  change (String.eqb "-" "--") with false.
  change (is_option "-i") with true. change (is_option "-") with false.
  cbv iota.
  change (scan_cluster (substring 1 (String.length "-i" - 1) "-i")
            (hd_error rest)) with ([got "i" ""], false).
  cbv iota beta.
  destruct (getopt_scan rest) as [rs ops]. cbn [app].
  rewrite parse_args_loop_step. cbn [g_o got]. 
  change (Ascii.eqb "i" "f") with false. change (Ascii.eqb "i" "i") with true.
  cbv iota. rewrite parse_args_loop_stdin.
  destruct (parse_args_loop (C.fmt_str (Some argv0)) rs g_options)
    as [t [o'| |]]; [|reflexivity | reflexivity].
  cbn [trace result fst snd fprintf_stderr emit bind ret app add_operands].
  change (String.eqb "-" "-") with true. cbv iota.
  rewrite !app_nil_r.
  destruct (add_operands ops (set_stdin o' 1) imv_init_navigator) as [o1 nav1].
  destruct (truthy (stdin o1)).
  - destruct (read_stdin stdin_text o1 nav1) as [t1 [nav2| |]]; reflexivity.
  - reflexivity.
Qed.

(** X7: the deprecated option -i has the effect of an operand "-" in
    its place: the whole run of the program is the one with "-", behind
    the deprecation warning on stderr. *)
Theorem X7_i_is_dash_with_a_warning argv0 rest stdin_text pf envs :
  main (argv0 :: "-i" :: rest) stdin_text pf envs
  = after_event (EStderr warn_deprecated_i)
      (main (argv0 :: "-" :: rest) stdin_text pf envs).
Proof.
  unfold main. apply bind_after_event.
  unfold main_startup. cbn [List.length Nat.ltb Nat.leb].
  apply bind_after_event. apply collect_paths_i.
Qed.

(** *** What a run writes and how it ends *)

Lemma run_ok_bind {A B} (Q : A -> Prop) (R : B -> Prop) (m : M A)
  (f : A -> M B) :
  run_ok Q m -> (forall a, Q a -> run_ok R (f a)) -> run_ok R (bind m f).
Proof.
  destruct m as [t [a| |]]; intros [Hc Hr] Hf; cbn [trace result fst snd] in *.
  - specialize (Hf a Hr). destruct (f a) as [t' r'] eqn:E.
    destruct Hf as [Hc' Hr']. cbn [trace result fst snd] in *.
    unfold bind. rewrite E. split; [now apply Forall_app|].
    cbn [trace result fst snd].
    destruct r' as [b|c|]; [assumption| |exact I].
    destruct Hr' as [H0|(H1 & t0 & s & ->)]; [now left|].
    right. split; [assumption|]. exists (t ++ t0), s. now rewrite app_assoc.
  - split; assumption.
  - split; [assumption | exact I].
Qed.

Lemma run_ok_ret {A} (Q : A -> Prop) a : Q a -> run_ok Q (ret a).
Proof. intros H. split; [constructor | exact H]. Qed.

Lemma run_ok_emit e : is_clear e = false -> run_ok (fun _ => True) (emit e).
Proof. intros H. split; [now constructor | exact I]. Qed.

Lemma run_ok_weaken {A} (Q R : A -> Prop) (m : M A) :
  (forall a, Q a -> R a) -> run_ok Q m -> run_ok R m.
Proof.
  intros HQR [Hc Hr]. split; [assumption|].
  destruct (result m); auto.
Qed.

Lemma parse_args_loop_ok name rs : forall o,
  options_ok o -> run_ok options_ok (parse_args_loop name rs o).
Proof.
  induction rs as [|r rs IH]; intros o Hok; [now apply run_ok_ret|].
  rewrite parse_args_loop_step.
  assert (Hset : forall o', options_ok o' -> options_ok o' /\ True) by auto.
  destruct Hok as (H1 & H2 & H3 & H4 & H5 & H6).
  destruct (Ascii.eqb (g_o r) "f").
  { apply IH. unfold options_ok; cbn.
    repeat (split; try assumption). now right. }
  destruct (Ascii.eqb (g_o r) "i").
  { apply (run_ok_bind (fun _ => True)); [now apply run_ok_emit|].
    intros _ _. apply IH. unfold options_ok; cbn.
    repeat (split; try assumption). now right. }
  destruct (Ascii.eqb (g_o r) "r").
  { apply IH. unfold options_ok; cbn.
    repeat (split; try assumption). now right. }
  destruct (Ascii.eqb (g_o r) "a").
  { apply IH. unfold options_ok; cbn.
    repeat (split; try assumption). now right. }
  destruct (Ascii.eqb (g_o r) "h").
  { split; [now repeat constructor | now left]. }
  destruct (Ascii.eqb (g_o r) "n").
  { apply (run_ok_bind options_ok); [|exact IH].
    destruct (parse_n_runs o (g_optarg r)) as (t1 & o1 & En).
    pose proof En as En'.
    apply parse_n_options in En';
      [|unfold options_ok; repeat (split; try assumption)].
    destruct En' as (N1 & N2 & _). rewrite En.
    split; [|exact N1]. cbn [trace fst].
    eapply Forall_impl; [|exact N2].
    intros e [->| ->]; reflexivity. }
  destruct (Ascii.eqb (g_o r) "?").
  { split; [now repeat constructor|].
    right. split; [reflexivity|]. now exists [], (unknown_argument (g_optopt r)). }
  apply IH. unfold options_ok; repeat (split; try assumption).
Qed.

Lemma read_lines_ok chunks o : forall nav,
  run_ok (fun _ => True) (read_lines chunks o nav).
Proof.
  induction chunks as [|c chunks IH]; intros nav; [now apply run_ok_ret|].
  cbn [read_lines]. apply (run_ok_bind (fun _ => True)); [|auto].
  unfold read_line. destruct (String.length (c_str c)) as [|k].
  - split; [constructor | exact I].
  - destruct (match String.get k (c_str c) with
              | Some ch => if Ascii.eqb ch newline
                           then (substring 0 k (c_str c), k)
                           else (c_str c, S k)
              | None => (c_str c, S k)
              end) as [buf len].
    destruct (0 <? len)%nat; now apply run_ok_ret.
Qed.

Lemma collect_paths_ok argv stdin_text :
  run_ok (fun p => options_ok (fst p)) (collect_paths argv stdin_text).
Proof.
  unfold collect_paths.
  apply (run_ok_bind (fun p => options_ok (fst p))).
  - unfold parse_args. destruct (getopt_scan (tl argv)) as [rs ops].
    apply (run_ok_bind options_ok);
      [apply parse_args_loop_ok, g_options_ok|].
    intros o' Ho. now apply run_ok_ret.
  - intros [o ops] Ho. cbn [fst snd] in *.
    pose proof (add_operands_options ops o imv_init_navigator Ho) as [Ha _].
    destruct (add_operands ops o imv_init_navigator) as [o1 nav1].
    cbn [fst] in Ha.
    apply (run_ok_bind (fun _ => True)).
    + destruct (truthy (stdin o1)); [apply read_lines_ok | now apply run_ok_ret].
    + intros nav _. now apply run_ok_ret.
Qed.

Lemma options_ok_bg o : options_ok o -> solid_bg o = 0.
Proof. now intros (_ & _ & _ & _ & _ & H). Qed.

Lemma main_startup_ok argv stdin_text pf :
  (2 <= List.length argv)%nat ->
  run_ok chequered_bg (main_startup argv stdin_text pf).
Proof.
  intros Hlen. unfold main_startup.
  destruct (List.length argv <? 2)%nat eqn:E;
    [apply Nat.ltb_lt in E; lia|].
  apply (run_ok_bind _ _ _ _ (collect_paths_ok argv stdin_text)).
  intros [o nav] Ho. cbn [fst] in Ho.
  destruct (imv_navigator_get_current_path nav).
  - destruct (sdl_init_error pf) as [err|].
    + split; [now repeat constructor|].
      right. split; [reflexivity|]. now eexists [], _.
    + destruct (create_chequered_texture_cases pf) as [-> | ->];
        [|split; [constructor | exact I]].
      destruct (truthy (fullscreen o)); cbn;
        (split; [now repeat constructor | now apply options_ok_bg]).
  - split; [now repeat constructor|].
    right. split; [reflexivity|]. now eexists [], _.
Qed.

Lemma handle_event_ok env e st :
  run_ok (fun r => st_opts (fst r) = st_opts st) (handle_event env e st).
Proof.
  destruct e as [|sym| | ms ? ?| |]; cbn.
  2: destruct sym; cbn.
  all: try destruct (imv_navigator_get_current_path (st_nav st)); cbn.
  all: try destruct (truthy (Z.land ms SDL_BUTTON_LMASK)); cbn.
  all: split; [now repeat constructor | cbn; auto].
Qed.

Lemma poll_events_ok env es : forall st,
  run_ok (fun r => st_opts (fst r) = st_opts st) (poll_events env es st).
Proof.
  induction es as [|e es IH]; intros st; cbn [poll_events].
  - now apply run_ok_ret.
  - apply (run_ok_bind _ _ _ _ (handle_event_ok env e st)).
    intros [st1 q] H1. cbn [fst snd] in *.
    destruct q; [now apply run_ok_ret|].
    rewrite <- H1. apply IH.
Qed.

Lemma apply_actual_opts st : st_opts (apply_actual st) = st_opts st.
Proof. unfold apply_actual. now destruct (truthy _). Qed.

Lemma load_current_ok st :
  run_ok (fun st' => st_opts st' = st_opts st) (load_current st).
Proof.
  rewrite load_current_eq.
  destruct (imv_navigator_get_current_path (st_nav st)) as [p|].
  - destruct (decode p) as [[f fs]|];
      (split; [now repeat constructor|]); cbn [result snd];
      now rewrite apply_actual_opts.
  - split; [now repeat constructor|].
    right. split; [reflexivity|]. now eexists [_], _.
Qed.

Lemma navigator_changes_ok fuel : forall st m,
  navigator_changes fuel st = Some m ->
  run_ok (fun st' => st_opts st' = st_opts st) m.
Proof.
  induction fuel as [|fuel IH]; intros st m; [discriminate|].
  rewrite navigator_changes_unfold; cbv zeta.
  destruct (changed (st_nav st)).
  - set (st0 := with_nav st _).
    pose proof (load_current_ok st0) as L.
    destruct (load_current st0) as [t0 [st1|c|]] eqn:E.
    + destruct (navigator_changes fuel st1) as [[t' r']|] eqn:En;
        [|discriminate].
      intros H. inversion H; subst. clear H.
      apply IH in En.
      assert (Hb : run_ok (fun st' => st_opts st' = st_opts st)
                     (bind (t0, Ok st1) (fun _ => (t', r')))).
      { apply (run_ok_bind _ _ _ _ L). intros a Ha.
        destruct L as [_ L1]. cbn [result snd] in L1.
        eapply run_ok_weaken; [|exact En].
        intros st' Hst'. cbn beta in Hst'. rewrite Hst', L1. reflexivity. }
      exact Hb.
    + intros H. inversion H; subst. exact L.
    + intros H. inversion H; subst. exact L.
  - intros H. inversion H; subst. now apply run_ok_ret.
Qed.

Lemma drain_navigator_ok st :
  run_ok (fun st' => st_opts st' = st_opts st) (drain_navigator st).
Proof.
  unfold drain_navigator.
  destruct (navigator_changes (changes_fuel st) st) as [m|] eqn:E.
  - now apply (navigator_changes_ok _ _ _ E).
  - split; [constructor | exact I].
Qed.

Lemma play_phase_ok env st :
  run_ok (fun st' => st_opts st' = st_opts st) (play_phase env st).
Proof.
  rewrite play_phase_eq. destruct (playing _);
    (split; [now repeat constructor | reflexivity]).
Qed.

Lemma image_phase_ok st :
  run_ok (fun st' => st_opts st' = st_opts st) (image_phase st).
Proof.
  unfold image_phase. cbn. destruct (img_changed (st_img st)); cbn;
    (split; [now repeat constructor | reflexivity]).
Qed.

Lemma draw_background_no_clear env st :
  chequered_bg st -> no_clear (draw_background env st).
Proof.
  unfold chequered_bg, draw_background. intros ->. cbn [truthy Z.eqb negb].
  destruct (st_chequered st) as [w h].
  apply Forall_flat_map, Forall_forall. intros yv _.
  apply Forall_map, Forall_forall. now intros xv _.
Qed.

Lemma paint_phase_ok env st :
  chequered_bg st ->
  run_ok (fun st' => st_opts st' = st_opts st) (paint_phase env st).
Proof.
  intros Hbg. rewrite paint_phase_eq. destruct (redraw _).
  - split; [|reflexivity]. cbn [trace fst].
    apply Forall_app. split; [now apply draw_background_no_clear|].
    now repeat constructor.
  - now apply run_ok_ret.
Qed.

Lemma loop_iteration_ok env st :
  chequered_bg st ->
  run_ok (fun it => chequered_bg (iteration_state it)) (loop_iteration env st).
Proof.
  intros Hbg. unfold loop_iteration, chequered_bg in *.
  apply (run_ok_bind _ _ _ _ (poll_events_ok env (pending env) st)).
  intros [st1 q] H1. cbn [fst] in H1.
  destruct q; [apply run_ok_ret; cbn; congruence|].
  apply (run_ok_bind _ _ _ _ (drain_navigator_ok st1)). intros st2 H2.
  apply (run_ok_bind _ _ _ _ (play_phase_ok env st2)). intros st3 H3.
  apply (run_ok_bind _ _ _ _ (image_phase_ok st3)). intros st4 H4.
  assert (B4 : chequered_bg st4) by (unfold chequered_bg; congruence).
  apply (run_ok_bind _ _ _ _ (paint_phase_ok env st4 B4)). intros st5 H5.
  apply (run_ok_bind (fun _ => True)); [now apply run_ok_emit|].
  intros _ _. apply run_ok_ret. cbn. congruence.
Qed.

Lemma main_loop_ok envs : forall st,
  chequered_bg st -> run_ok (fun _ => True) (main_loop envs st).
Proof.
  induction envs as [|env envs IH]; intros st Hbg; cbn [main_loop].
  - now apply run_ok_ret.
  - apply (run_ok_bind _ _ _ _ (loop_iteration_ok env st Hbg)).
    intros [st'|st'] H; cbn [iteration_state] in H.
    + now apply IH.
    + split; [constructor | now left].
Qed.

Lemma main_ok argv stdin_text pf envs :
  (2 <= List.length argv)%nat ->
  run_ok (fun _ => True) (main argv stdin_text pf envs).
Proof.
  intros Hlen. unfold main.
  apply (run_ok_bind _ _ _ _ (main_startup_ok argv stdin_text pf Hlen)).
  intros st Hbg. now apply main_loop_ok.
Qed.

Lemma main_no_arguments argv stdin_text pf envs :
  (List.length argv < 2)%nat ->
  main argv stdin_text pf envs
  = (trace (print_usage (C.fmt_str (hd_error argv))), Exit 1).
Proof.
  intros Hlen. unfold main, main_startup.
  apply Nat.ltb_lt in Hlen. rewrite Hlen. reflexivity.
Qed.

(** X8: no run of the program clears the window to a solid colour:
    [g_options.solid_bg] is set nowhere, so the branch of the paint
    step that calls SDL_RenderClear is never taken and the background
    is always the chequered one. *)
Theorem X8_background_is_never_solid argv stdin_text pf envs :
  no_clear (trace (main argv stdin_text pf envs)).
Proof.
  destruct (Nat.ltb_spec (List.length argv) 2) as [Hlen|Hlen].
  - rewrite (main_no_arguments _ _ _ _ Hlen). now repeat constructor.
  - exact (proj1 (main_ok argv stdin_text pf envs Hlen)).
Qed.

(** X9: the program exits only with status 0 or 1, and an exit with
    status 1 is always announced: the last thing written before it is
    a message on stderr, or the usage text on stdout when the program
    was started without an argument. *)
Theorem X9_exit_status_is_0_or_1 argv stdin_text pf envs c :
  result (main argv stdin_text pf envs) = Exit c ->
  c = 0
  \/ (c = 1
      /\ ((exists t0 s,
             trace (main argv stdin_text pf envs) = t0 ++ [EStderr s])
          \/ ((List.length argv < 2)%nat
              /\ trace (main argv stdin_text pf envs)
                 = trace (print_usage (C.fmt_str (hd_error argv)))))).
Proof.
  destruct (Nat.ltb_spec (List.length argv) 2) as [Hlen|Hlen].
  - rewrite (main_no_arguments _ _ _ _ Hlen). cbn [result trace fst snd].
    intros H. inversion H. right. split; [reflexivity|]. right. now split.
  - destruct (main_ok argv stdin_text pf envs Hlen) as [_ Hr].
    intros E. rewrite E in Hr. destruct Hr as [H0|[H1 Hmsg]]; [now left|].
    right. split; [assumption|]. now left.
Qed.

(** *** What stdin gives *)

Lemma concat_cons x xs :
  String.concat "" (x :: xs) = (x ++ String.concat "" xs)%string.
Proof.
  destruct xs as [|y ys]; cbn [String.concat]; [|reflexivity].
  induction x as [|c x IH]; cbn; [reflexivity | now rewrite <- IH].
Qed.

Lemma fgets_all_concat s : forall room cur,
  String.concat "" (fgets_all room cur s) = (cur ++ s)%string.
Proof.
  induction s as [|c s IH]; intros room cur; cbn [fgets_all].
  - destruct cur; [reflexivity|]. now rewrite concat_cons.
  - destruct (Ascii.eqb c newline || (room =? 1)%nat).
    + rewrite concat_cons, IH. cbn [append].
      now rewrite app_string_assoc.
    + rewrite IH. now rewrite app_string_assoc.
Qed.

Lemma length_snoc s c : String.length (s ++ String c "") = S (String.length s).
Proof. induction s as [|x s IH]; cbn; [reflexivity | now rewrite IH]. Qed.

Lemma get_snoc s c : String.get (String.length s) (s ++ String c "") = Some c.
Proof. induction s as [|x s IH]; cbn; [reflexivity | exact IH]. Qed.

Lemma substring_snoc s c : substring 0 (String.length s) (s ++ String c "") = s.
Proof. induction s as [|x s IH]; cbn; [reflexivity | now rewrite IH]. Qed.

Lemma strip_snoc s c :
  strip_newline (s ++ String c "")
  = if Ascii.eqb c newline then s else (s ++ String c "")%string.
Proof.
  unfold strip_newline. rewrite length_snoc, get_snoc.
  destruct (Ascii.eqb c newline); [apply substring_snoc | reflexivity].
Qed.

Lemma no_newline_snoc s c :
  no_newline s = true -> Ascii.eqb c newline = false ->
  no_newline (s ++ String c "") = true.
Proof.
  induction s as [|x s IH]; intros Hs Hc; cbn [append no_newline] in *.
  - now rewrite Hc.
  - apply andb_prop in Hs as [Hx Hs]. now rewrite Hx, IH.
Qed.

Lemma get_no_newline s : forall k c,
  no_newline s = true -> String.get k s = Some c ->
  Ascii.eqb c newline = false.
Proof.
  induction s as [|x s IH]; intros k c Hs Hg; [discriminate|].
  cbn [no_newline] in Hs. apply andb_prop in Hs as [Hx Hs].
  destruct k as [|k]; cbn in Hg.
  - inversion Hg; subst. now apply negb_true_iff in Hx.
  - exact (IH _ _ Hs Hg).
Qed.

Lemma strip_no_newline s : no_newline s = true -> strip_newline s = s.
Proof.
  intros Hs. unfold strip_newline.
  destruct (String.length s) as [|k]; [reflexivity|].
  destruct (String.get k s) as [c|] eqn:Hg; [|reflexivity].
  now rewrite (get_no_newline _ _ _ Hs Hg).
Qed.

Lemma fgets_all_pieces s : forall room cur,
  no_newline cur = true ->
  (1 <= room)%nat -> (String.length cur + room = BUF_SIZE - 1)%nat ->
  Forall (fun c => no_newline (strip_newline c) = true
                   /\ (String.length (strip_newline c) <= BUF_SIZE - 1)%nat)
         (fgets_all room cur s).
Proof.
  induction s as [|c s IH]; intros room cur Hc Hr Hl; cbn [fgets_all].
  - destruct cur as [|x cur]; constructor; [|constructor].
    rewrite (strip_no_newline _ Hc). split; [assumption | lia].
  - destruct (Ascii.eqb c newline) eqn:Ec; cbn [orb].
    + constructor; [|apply IH; [reflexivity | cbn; lia | cbn; lia]].
      rewrite strip_snoc, Ec. split; [assumption | lia].
    + destruct (Nat.eqb_spec room 1) as [E1|E1].
      * constructor; [|apply IH; [reflexivity | cbn; lia | cbn; lia]].
        rewrite strip_snoc, Ec.
        split; [now apply no_newline_snoc | rewrite length_snoc; lia].
      * apply IH; [now apply no_newline_snoc | lia | rewrite length_snoc; lia].
Qed.

(** X10: from stdin without NUL characters nothing is lost and nothing
    is undefined: the pieces the fgets loop takes make up the whole
    text, and every path handed to the navigator is a piece without
    its final newline that is not empty; such a path holds no newline
    and between 1 and 511 characters. *)
Theorem X10_stdin_paths_fit_the_buffer text o nav :
  no_nul text = true ->
  let pieces := fgets_all (BUF_SIZE - 1) "" text in
  let ps := filter not_empty (map strip_newline pieces) in
  read_stdin text o nav = ret (fold_left (add_input o) ps nav)
  /\ String.concat "" pieces = text
  /\ Forall stdin_path ps.
Proof.
  intros Hn pieces ps. split; [|split].
  - unfold read_stdin.
    now rewrite (read_lines_eq o _ nav (fgets_all_chunks text _ "" Hn eq_refl)).
  - unfold pieces. now rewrite fgets_all_concat.
  - unfold ps, pieces.
    pose proof (fgets_all_pieces text (BUF_SIZE - 1) "" eq_refl
                  ltac:(cbn; lia) ltac:(cbn; lia)) as Hp.
    induction Hp as [|c l [H1 H2] _ IH]; [constructor|].
    cbn [map filter]. unfold not_empty at 1.
    destruct (Nat.ltb_spec 0 (String.length (strip_newline c))); [|exact IH].
    constructor; [|exact IH]. split; [assumption | lia].
Qed.

Lemma read_lines_app a o : forall b nav,
  read_lines (a ++ b) o nav
  = (nav' <- read_lines a o nav ;; read_lines b o nav').
Proof.
  induction a as [|c a IH]; intros b nav; cbn [app read_lines].
  - unfold ret, bind. now destruct (read_lines b o nav).
  - destruct (read_line o nav c) as [t [nav1| |]]; [|reflexivity | reflexivity].
    rewrite !(bind_ok _ _ _ _ eq_refl), IH.
    destruct (read_lines a o nav1) as [t1 [nav2| |]]; cbn;
      [|reflexivity | reflexivity].
    destruct (read_lines b o nav2) as [t2 r2]. cbn. now rewrite app_assoc.
Qed.

Lemma fgets_all_nul_first s : forall room cur,
  exists x l, fgets_all room (String zero cur) s = String zero x :: l.
Proof.
  induction s as [|c s IH]; intros room cur; cbn [fgets_all append].
  - eauto.
  - destruct (Ascii.eqb c newline || (room =? 1)%nat); [eauto | apply IH].
Qed.

Lemma fgets_all_lines_then lines : forall rest,
  Forall text_line lines ->
  fgets_all (BUF_SIZE - 1) "" (text_of lines ++ rest)
  = map (fun l => (l ++ C.nl)%string) lines
      ++ fgets_all (BUF_SIZE - 1) "" rest.
Proof.
  intros rest Hf. induction Hf as [|l lines [Hc Hlen] _ IH]; [reflexivity|].
  cbn [text_of map app]. rewrite !app_string_assoc.
  rewrite fgets_line; [|assumption | unfold BUF_SIZE in *; lia].
  now rewrite IH.
Qed.

(** X11: a NUL character at the start of a line of stdin takes the
    fgets loop out of defined behaviour: the lines before it are added
    as paths, then [strlen] of the buffer is 0 and [buf[len-1]] is a
    read outside the buffer. *)
Theorem X11_nul_at_line_start_is_undefined lines rest o nav :
  Forall text_line lines ->
  read_stdin (text_of lines ++ String zero rest) o nav = ([], Undefined).
Proof.
  intros Hf. unfold read_stdin.
  rewrite (fgets_all_lines_then _ _ Hf), read_lines_app.
  rewrite (read_lines_text o _ nav Hf).
  unfold ret at 1. rewrite (bind_ok _ _ _ _ eq_refl).
  cbn [fgets_all append]. change (Ascii.eqb zero newline) with false.
  change ((BUF_SIZE - 1 =? 1)%nat) with false. cbn [orb].
  destruct (fgets_all_nul_first rest (BUF_SIZE - 1 - 1) "") as (x & l & ->).
  reflexivity.
Qed.

(** *** Quit requests *)

Lemma handle_event_quit env e st t st' q :
  handle_event env e st = (t, Ok (st', q)) -> q = is_quit e.
Proof.
  destruct e as [|sym| | ms ? ?| |]; cbn.
  2: destruct sym; cbn.
  all: try destruct (imv_navigator_get_current_path (st_nav st)); cbn.
  all: try destruct (truthy (Z.land ms SDL_BUTTON_LMASK)); cbn.
  all: intros H; inversion H; reflexivity.
Qed.

Lemma handle_event_is_quit env e st :
  is_quit e = true -> handle_event env e st = ([], Ok (st, true)).
Proof. destruct e as [|[]| | | |]; try discriminate; reflexivity. Qed.

Lemma poll_events_app env es1 : forall es2 st t st1,
  poll_events env es1 st = (t, Ok (st1, false)) ->
  poll_events env (es1 ++ es2) st
  = (t ++ trace (poll_events env es2 st1), result (poll_events env es2 st1)).
Proof.
  induction es1 as [|e es1 IH]; intros es2 st t st1; cbn [app poll_events].
  - intros H. inversion H; subst. now destruct (poll_events env es2 st1).
  - destruct (handle_event env e st) as [t0 [[st0 q0]| |]];
      [|discriminate | discriminate].
    rewrite !(bind_ok _ _ _ _ eq_refl). cbn [fst snd].
    destruct q0.
    + cbn. intros H. inversion H.
    + destruct (poll_events env es1 st0) as [t1 r1] eqn:E1.
      cbn [trace result fst snd]. intros H. inversion H; subst.
      rewrite (IH es2 _ _ _ E1). cbn [trace result fst snd].
      now rewrite app_assoc.
Qed.

(** X12: quit is requested by the event SDL_QUIT and by the key q and
    by no other event; once it is requested, the events still queued
    are not handled, the iteration loads, plays and paints nothing and
    does not sleep, and the program exits with status 0. *)
Theorem X12_quit_ends_the_run env rest st es1 e es2 t st1 :
  pending env = es1 ++ e :: es2 ->
  is_quit e = true ->
  poll_events env es1 st = (t, Ok (st1, false)) ->
  (forall e' st0 t' st' q,
      handle_event env e' st0 = (t', Ok (st', q)) -> q = is_quit e')
  /\ loop_iteration env st = (t, Ok (Quit st1))
  /\ main_loop (env :: rest) st = (t, Exit 0).
Proof.
  intros Hpend Hq Hpoll.
  split; [intros e' st0 t' st' q; apply handle_event_quit|].
  assert (Hit : loop_iteration env st = (t, Ok (Quit st1))).
  { unfold loop_iteration. rewrite Hpend.
    rewrite (poll_events_app _ _ _ _ _ _ Hpoll).
    cbn [poll_events]. rewrite (handle_event_is_quit _ _ _ Hq).
    cbn. now rewrite !app_nil_r. }
  split; [exact Hit|].
  cbn [main_loop]. rewrite Hit. cbn. now rewrite app_nil_r.
Qed.

(** *** Options behind operands *)

Lemma scan_cluster_next cs a : forall next,
  snd (scan_cluster cs (Some a)) = false ->
  scan_cluster cs next = scan_cluster cs (Some a).
Proof.
  induction cs as [|c cs IH]; intros next H; [reflexivity|].
  cbn [scan_cluster] in *. destruct (opt_kind c).
  - destruct (scan_cluster cs (Some a)) as [rs took] eqn:E.
    cbn [snd] in H. subst. now rewrite (IH next eq_refl).
  - destruct (scan_cluster cs (Some a)) as [rs took] eqn:E.
    cbn [snd] in H. subst. now rewrite (IH next eq_refl).
  - destruct cs; [discriminate|]. now destruct next.
Qed.

Lemma getopt_scan_operand_first a opt rest :
  names_path a -> is_option opt = true -> opt <> "--" ->
  snd (scan_cluster (cluster opt) (Some a)) = false ->
  getopt_scan (a :: opt :: rest) = getopt_scan (opt :: a :: rest).
Proof.
  intros Ha Hopt Hdd Htook.
  assert (Ed : String.eqb opt "--" = false)
    by (destruct (String.eqb_spec opt "--"); [contradiction | reflexivity]).
  assert (Ea : forall tail,
             getopt_scan (a :: tail)
             = (fst (getopt_scan tail), a :: snd (getopt_scan tail))).
  { intros tail. cbn [getopt_scan]. rewrite (names_path_not_dashes _ Ha).
    destruct Ha as [-> _]. now destruct (getopt_scan tail). }
  assert (Eo : forall tail,
             getopt_scan (opt :: tail)
             = (fst (scan_cluster (cluster opt) (Some a))
                  ++ fst (getopt_scan tail),
                snd (getopt_scan tail))).
  { intros tail. cbn [getopt_scan]. rewrite Ed, Hopt.
    fold (cluster opt).
    rewrite (scan_cluster_next _ _ (hd_error tail) Htook).
    destruct (scan_cluster (cluster opt) (Some a)) as [rs took].
    cbn [snd fst] in *. subst took. now destruct (getopt_scan tail). }
  rewrite (Eo (a :: rest)), (Ea rest), (Ea (opt :: rest)), (Eo rest).
  reflexivity.
Qed.

(** X13: options may stand behind the operands they apply to: getopt
    is run over the whole command line before the first operand is
    looked at, so a path followed by an option element (one that does
    not take the next element as its argument) gives the same run as
    the two in the other order. *)
Theorem X13_options_may_follow_operands argv0 a opt rest stdin_text pf envs :
  names_path a -> is_option opt = true -> opt <> "--" ->
  snd (scan_cluster (cluster opt) (Some a)) = false ->
  main (argv0 :: a :: opt :: rest) stdin_text pf envs
  = main (argv0 :: opt :: a :: rest) stdin_text pf envs.
Proof.
  intros Ha Hopt Hdd Htook.
  unfold main, main_startup, collect_paths, parse_args.
  cbn [List.length Nat.ltb Nat.leb tl hd_error].
  now rewrite (getopt_scan_operand_first a opt rest Ha Hopt Hdd Htook).
Qed.

(** *** Stdin is read on request only *)

Lemma parse_args_loop_no_i name rs : forall o t o',
  Forall (fun r => g_o r <> "i"%char) rs ->
  parse_args_loop name rs o = (t, Ok o') -> stdin o' = stdin o.
Proof.
  induction rs as [|r rs IH]; intros o t o' Hf.
  - intros H. now inversion H.
  - inversion Hf as [|? ? Hr Hf']; subst.
    rewrite parse_args_loop_step.
    destruct (Ascii.eqb (g_o r) "f"); [intros H; now apply IH in H|].
    destruct (Ascii.eqb_spec (g_o r) "i") as [E|_]; [contradiction|].
    destruct (Ascii.eqb (g_o r) "r"); [intros H; now apply IH in H|].
    destruct (Ascii.eqb (g_o r) "a"); [intros H; now apply IH in H|].
    destruct (Ascii.eqb (g_o r) "h"); [discriminate|].
    destruct (Ascii.eqb (g_o r) "n").
    { rewrite parse_n_eq.
      destruct (negb _ || _); rewrite (bind_ok _ _ _ _ eq_refl);
        destruct (parse_args_loop name rs _) as [t2 r2] eqn:E;
        cbn [trace result fst snd]; intros H; inversion H; subst;
        now apply IH in E. }
    destruct (Ascii.eqb (g_o r) "?"); [discriminate|].
    intros H. now apply IH in H.
Qed.

Lemma collect_paths_without_stdin argv s1 s2 :
  Forall (fun r => g_o r <> "i"%char) (fst (getopt_scan (tl argv))) ->
  ~ In "-" (snd (getopt_scan (tl argv))) ->
  collect_paths argv s1 = collect_paths argv s2.
Proof.
  intros Hi Hd. unfold collect_paths.
  destruct (parse_args argv g_options) as [t [[o ops]| |]] eqn:Hp;
    [|reflexivity | reflexivity].
  apply parse_args_running in Hp as [Hl ->].
  apply (parse_args_loop_no_i _ _ _ _ _ Hi) in Hl.
  rewrite !(bind_ok _ _ _ _ eq_refl). cbn [fst snd].
  rewrite add_operands_eq.
  destruct (existsb (String.eqb "-") (snd (getopt_scan (tl argv)))) eqn:E.
  - apply existsb_exists in E as (x & Hin & Heq).
    apply String.eqb_eq in Heq. subst x. contradiction.
  - rewrite Hl. reflexivity.
Qed.

(** X14: stdin is read on request only: when getopt meets no -i and
    no operand is "-", the run of the program does not depend on what
    stdin holds. *)
Theorem X14_stdin_is_read_only_on_request argv s1 s2 pf envs :
  Forall (fun r => g_o r <> "i"%char) (fst (getopt_scan (tl argv))) ->
  ~ In "-" (snd (getopt_scan (tl argv))) ->
  main argv s1 pf envs = main argv s2 pf envs.
Proof.
  intros Hi Hd. unfold main, main_startup.
  now rewrite (collect_paths_without_stdin argv s1 s2 Hi Hd).
Qed.

End Imv.

(** ** The program on concrete inputs *)

Example strtol_decimal : C.strtol0 "42" = (42, "").
Proof. reflexivity. Qed.
Example strtol_hexadecimal : C.strtol0 " -0x1fz" = (-31, "z").
Proof. reflexivity. Qed.
Example strtol_octal : C.strtol0 "0129" = (10, "9").
Proof. reflexivity. Qed.
Example strtol_no_digits : C.strtol0 " +abc" = (0, " +abc").
Proof. reflexivity. Qed.
Example strtol_saturates :
  C.strtol0 "99999999999999999999" = (C.LONG_MAX, "").
Proof. reflexivity. Qed.
Example n_value_is_an_int : n_value "4294967297" = 1.
Proof. reflexivity. Qed.

Example getopt_permutes :
  getopt_scan ["a"; "-fn3"; "b"; "-n"; "-"; "--"; "-r"]
  = ([got "f" ""; got "n" "3"; got "n" "-"], ["a"; "b"; "-r"]).
Proof. reflexivity. Qed.
Example getopt_question_marks :
  getopt_scan ["-z"; "-"; "-n"] = ([unknown "z"; unknown "n"], ["-"]).
Proof. reflexivity. Qed.

Example drain_sample :
  drain_navigator Sample.decode Sample.st
  = ([ESetTitle "imv - [1/2] [LOADING] a.png"; ELoad "a.png" false;
      ESetTitle "imv - [1/1] [LOADING] b.png"; ELoad "b.png" true;
      ESetTitle "imv - [1/1] [640x480] b.png"],
     Ok Sample.st_b).
Proof. reflexivity. Qed.

(** The sample platform reports no limit: the texture is 512 by 512
    and fits its buffer. *)
Lemma sample_texture_fits : texture_fits Sample.pf.
Proof. repeat split; cbn; lia. Qed.

Lemma sample_texture :
  create_chequered_texture Sample.pf = ret (512, 512).
Proof. exact (create_chequered_texture_fits Sample.pf sample_texture_fits). Qed.

(** A renderer limited to textures 20 pixels wide: start-up runs into
    the write past the buffer. *)
Example narrow_texture_is_undefined :
  main "1.0" Sample.list_files Sample.decode Sample.play Sample.zoom
    Sample.init_viewport ["imv"; "b.png"] "" (mk_platform None 20 2 1000)
    [Sample.env]
  = ([], Undefined).
Proof. vm_compute. reflexivity. Qed.

(** One iteration on the sample state, as the program writes it. *)
Example iteration_sample :
  loop_iteration Sample.decode Sample.play Sample.zoom Sample.env Sample.st
  = ([ESetTitle "imv - [1/2] [LOADING] a.png"; ELoad "a.png" false;
      ESetTitle "imv - [1/1] [LOADING] b.png"; ELoad "b.png" true;
      ESetTitle "imv - [1/1] [640x480] b.png";
      EPlay 0x1.47ae147ae148p-7%float;
      ETextureSetImage (Some (mk_bitmap 640 480 1));
      ERenderCopy 0 0 512 512; ERenderCopy 512 0 512 512;
      ERenderCopy 1024 0 512 512; ERenderCopy 0 512 512 512;
      ERenderCopy 512 512 512 512; ERenderCopy 1024 512 512 512;
      ETextureDraw (153600 # 960) (0 # 960) (720 # 480); ERenderPresent;
      EDelay 10],
     Ok (Continue Sample.st_shown)).
Proof. vm_compute. reflexivity. Qed.

Lemma C1_witness :
  nav_wf (st_nav Sample.st)
  /\ exists t r, drain_navigator Sample.decode Sample.st = (t, r)
                 /\ drain_post Sample.decode Sample.st r.
Proof.
  assert (H : nav_wf (st_nav Sample.st)) by (right; cbn; lia).
  split; [exact H|].
  exact (proj1 (C1_failed_paths_are_dropped_until_one_loads
                  Sample.decode Sample.st H)).
Defined.

(** C2 as stated fails: the key x takes the last path away and the key
    q among the same events ends the program with status 0 and without
    a word on stderr, in a state that has no current path. *)
Lemma C2_counterexample :
  exists st',
    loop_iteration Sample.decode Sample.play Sample.zoom Sample.env_xq
      Sample.st_shown
    = ([], Ok (Quit st'))
    /\ imv_navigator_get_current_path (st_nav st') = None
    /\ main_loop Sample.decode Sample.play Sample.zoom [Sample.env_xq]
         Sample.st_shown
       = ([], Exit 0).
Proof. eexists. repeat split. Qed.

Lemma C2_witness :
  main_startup "1.0" Sample.list_files Sample.init_viewport
    ["imv"; "-"] "" Sample.pf
  = ([EStderr ("No input files. Exiting." ++ String "010" "")], Exit 1)
  /\ loop_iteration Sample.decode Sample.play Sample.zoom Sample.env_x
       Sample.st_shown
     = ([ESetTitle "imv - [0/0] [LOADING] (null)";
         EStderr ("No input files left. Exiting." ++ String "010" "")],
        Exit 1)
  /\ main_loop Sample.decode Sample.play Sample.zoom [Sample.env_xq]
       Sample.st_shown
     = ([], Exit 0).
Proof.
  pose proof (C2_no_current_path_is_fatal "1.0" Sample.list_files
                Sample.decode Sample.play Sample.zoom Sample.init_viewport
                ["imv"; "-"] "" Sample.pf Sample.env_x Sample.st_shown)
    as (H1 & H2 & _).
  pose proof (C2_no_current_path_is_fatal "1.0" Sample.list_files
                Sample.decode Sample.play Sample.zoom Sample.init_viewport
                ["imv"; "-"] "" Sample.pf Sample.env_xq Sample.st_shown)
    as (_ & _ & H3 & _).
  split; [|split].
  - apply (H1 [] (set_stdin g_options 1) imv_init_navigator).
    + cbn. lia.
    + reflexivity.
    + reflexivity.
  - refine (H2 [] (with_nav Sample.st_shown
                     (imv_navigator_remove_current_path
                        (st_nav Sample.st_shown))) _ _ _).
    + split; [right; cbn; lia | discriminate].
    + reflexivity.
    + reflexivity.
  - refine (proj2 (H3 [] (with_nav Sample.st_shown
                            (imv_navigator_remove_current_path
                               (st_nav Sample.st_shown))) [] _)).
    reflexivity.
Defined.

(** C3 as stated fails: with the valid path "b.png" on the command line,
    the unrecognised flag -z makes the program exit with status 1, while
    the same command line without the flag starts. *)
Lemma C3_counterexample :
  main_startup "1.0" Sample.list_files Sample.init_viewport
    ["imv"; "-z"; "b.png"] "" Sample.pf
  = ([EStderr (unknown_argument "z")], Exit 1)
  /\ exists st0,
       main_startup "1.0" Sample.list_files Sample.init_viewport
         ["imv"; "b.png"] "" Sample.pf
       = ([], Ok st0).
Proof.
  split; [reflexivity|]. eexists.
  unfold main_startup. rewrite sample_texture. reflexivity.
Qed.

Lemma C3_witness :
  main_startup "1.0" Sample.list_files Sample.init_viewport
    ["imv"; "-z"; "b.png"] "" Sample.pf
  = ([EStderr (unknown_argument "z")], Exit 1)
  /\ parse_args_loop "1.0" "imv" [got "n" "x2"; got "f" ""] g_options
     = ([EStderr warn_wrong_n], Ok (set_fullscreen g_options 1)).
Proof.
  split.
  - apply (proj1 (C3_unknown_flag_aborts_and_bad_n_only_warns
                    "1.0" Sample.list_files Sample.init_viewport)).
    + reflexivity.
    + discriminate.
  - apply (proj2 (proj2 (C3_unknown_flag_aborts_and_bad_n_only_warns
                           "1.0" Sample.list_files Sample.init_viewport))
             "imv" (got "n" "x2") [got "f" ""] g_options).
    + reflexivity.
    + left. discriminate.
Defined.

(** C4 as stated fails: 'l' does not move by (+50, 0) and 'h' does not
    move by (-50, 0). *)
Lemma C4_counterexample :
  (forall st',
      result (keydown Sample.zoom SDLK_l Sample.st) = Ok (st', false) ->
      ~ (x (st_view st') == x (st_view Sample.st) + 50)%Q)
  /\ (forall st',
         result (keydown Sample.zoom SDLK_h Sample.st) = Ok (st', false) ->
         ~ (x (st_view st') == x (st_view Sample.st) - 50)%Q)
  /\ keydown Sample.zoom SDLK_l Sample.st
     <> ret (with_view Sample.st
               (imv_viewport_move (st_view Sample.st) 50 0), false).
Proof.
  split; [|split].
  - intros st' H. cbn in H. injection H as <-. cbn. discriminate.
  - intros st' H. cbn in H. injection H as <-. cbn. discriminate.
  - vm_compute. discriminate.
Qed.

Lemma C4_witness :
  (x (st_view (with_view Sample.st
                 (imv_viewport_move (st_view Sample.st) (-50) 0)))
   == x (st_view Sample.st) - 50)%Q.
Proof.
  apply (proj1 (proj2 (proj2 (proj2
           (C4_l_moves_by_minus_50_and_h_by_plus_50 Sample.zoom Sample.st))))).
  reflexivity.
Defined.



Lemma C7_witness :
  exists t st,
    main "1.0" Sample.list_files Sample.decode Sample.play Sample.zoom
      Sample.init_viewport ["imv"; "a.png"; "b.png"] "" Sample.pf [Sample.env]
    = (t, Ok st)
    /\ imv_navigator_get_current_path (st_nav st) = Some "b.png"
    /\ paths (st_nav st) = ["b.png"]
    /\ num_paths (st_nav st) = 1.
Proof.
  apply (C7_undecodable_first_path_is_dropped "1.0" Sample.list_files
           Sample.decode Sample.play Sample.zoom Sample.init_viewport
           "imv" "a.png" "b.png" "" Sample.pf Sample.env).
  - split; [reflexivity | discriminate].
  - split; [reflexivity | discriminate].
  - reflexivity.
  - discriminate.
  - reflexivity.
  - repeat split; cbn; lia.
  - reflexivity.
Defined.

(** The titles of the sample run, letter by letter: "a.png" does not
    load and leaves the loading title standing; "b.png" loads, the
    title then shows its size and the view is fitted to the window. *)
Lemma C8_witness :
  titles (trace (load_current Sample.decode Sample.st))
  = ["imv - [1/2] [LOADING] a.png"]
  /\ titles (trace (load_current Sample.decode
                      (with_nav Sample.st
                         (mk_navigator ["b.png"] 0 false))))
     = ["imv - [1/1] [LOADING] b.png"; "imv - [1/1] [640x480] b.png"]
  /\ result (load_current Sample.decode
               (with_nav Sample.st (mk_navigator ["b.png"] 0 false)))
     = Ok Sample.st_b
  /\ scale (st_view Sample.st_b) = (720 # 480)%Q.
Proof.
  pose proof (C8_title_shows_loading_then_size Sample.decode Sample.st)
    as (_ & _ & Ha).
  pose proof (C8_title_shows_loading_then_size Sample.decode
                (with_nav Sample.st (mk_navigator ["b.png"] 0 false)))
    as (_ & _ & Hb).
  cbv zeta in Ha, Hb.
  change (imv_navigator_get_current_path (st_nav Sample.st))
    with (Some "a.png") in Ha.
  change (imv_navigator_get_current_path
            (st_nav (with_nav Sample.st (mk_navigator ["b.png"] 0 false))))
    with (Some "b.png") in Hb.
  change (Sample.decode "a.png") with (@None (frame * list frame)) in Ha.
  change (Sample.decode "b.png")
    with (Some ((mk_bitmap 640 480 1, (1 # 10)%Q), @nil frame)) in Hb.
  cbv beta iota zeta in Ha, Hb.
  destruct Ha as [Ha _]. destruct Hb as [Hb1 Hb2].
  split; [exact Ha|]. split; [exact Hb1|]. split; [exact Hb2 | reflexivity].
Defined.



(** C10 as stated fails: a "-" that getopt hands to -n as its argument
    is an argument that is exactly "-", yet stdin is not read; and a
    line of 600 characters gives two paths, of 511 and 89 characters,
    not one. *)
Lemma C10_counterexample :
  collect_paths "1.0" Sample.list_files ["imv"; "-n"; "-"; "a.png"]
    ("b.png" ++ C.nl)
  = ([EStderr warn_wrong_n], Ok (g_options, mk_navigator ["a.png"] 0 true))
  /\ exists o nav,
       collect_paths "1.0" Sample.list_files ["imv"; "-"]
         (string_of_list_ascii (repeat "a"%char 600) ++ C.nl)
       = ([], Ok (o, nav))
       /\ map String.length (paths nav) = [511%nat; 89%nat].
Proof.
  split; [reflexivity|]. eexists; eexists. split; vm_compute; reflexivity.
Qed.

Lemma C10_witness :
  add_operands Sample.list_files ["a.png"; "-"] g_options imv_init_navigator
  = (set_stdin g_options 1, mk_navigator ["a.png"] 0 true)
  /\ collect_paths "1.0" Sample.list_files ["imv"; "a.png"; "-"]
       (text_of ["b.png"; ""; "c.png"])
     = ([], Ok (set_stdin g_options 1,
                mk_navigator ["a.png"; "b.png"; "c.png"] 0 true)).
Proof.
  assert (Hp : parse_args "1.0" ["imv"; "a.png"; "-"] g_options
               = ([], Ok (g_options, ["a.png"; "-"]))) by reflexivity.
  assert (Hin : In "-" ["a.png"; "-"]) by (right; left; reflexivity).
  destruct (C10_dash_reads_stdin_and_is_no_path "1.0" Sample.list_files
              ["imv"; "a.png"; "-"] (text_of ["b.png"; ""; "c.png"])
              [] g_options ["a.png"; "-"] Hp Hin)
    as (H1 & _ & _ & H2 & _ & H3).
  split; [exact H1|].
  rewrite H2, H3; [reflexivity|].
  repeat constructor.
Defined.

(** A line of 600 characters does not fit the buffer: fgets hands it
    over in two pieces. *)
Example long_line_comes_in_pieces :
  map String.length
    (fgets_all (BUF_SIZE - 1) ""
       (string_of_list_ascii (repeat "a"%char 600) ++ C.nl)%string)
  = [511%nat; 90%nat].
Proof. vm_compute. reflexivity. Qed.

(** *** The chequered texture, the options and the run on concrete inputs *)

Lemma X1_witness :
  exists buf, chequered_pixels 512 512 = Some buf
    /\ Z.of_nat (List.length buf) = 3 * 512 * 512
    /\ forall x y ch, 0 <= x < 512 -> 0 <= y < 512 -> 0 <= ch < 3 ->
         pixel_byte 512 buf x y ch = Some (Some (box_color x y)).
Proof.
  apply (X1_chequered_pixels_pattern 512 512); [lia | lia | reflexivity].
Defined.

Lemma X2_witness : chequered_pixels 20 2 = None.
Proof.
  apply (X2_chequered_pixels_overrun 20 2); [lia | lia | vm_compute; lia].
Defined.

Lemma X3_witness :
  let '(w, h) := create_chequered (mk_platform None 100 0 0) in
  1 <= w <= 512 /\ 1 <= h <= 512
  /\ (100 <> 0 -> w <= 100) /\ (0 <> 0 -> h <= 0)
  /\ (w = 512 \/ w = 100) /\ (h = 512 \/ h = 0)
  /\ 0 < 3 * w * h <= 786432 /\ 786432 < C.INT_MAX.
Proof.
  apply (X3_chequered_size_bounds (mk_platform None 100 0 0)); cbn; lia.
Defined.

Lemma X4_witness :
  In (ERenderCopy 512 512 512 512) (draw_background Sample.env Sample.st).
Proof.
  refine (proj1 (X4_background_tiles_cover_window Sample.env Sample.st
                   600 700 _ _ _ _ _)); cbn; try reflexivity; lia.
Defined.

Lemma X5_witness : options_ok (mk_options 1 0 0 0 2 0 0 0 0).
Proof.
  refine (proj1 (X5_options_stay_in_range "1.0" Sample.list_files
                   ["imv"; "-f"; "-n"; "3"; "a.png"] []
                   (mk_options 1 0 0 0 2 0 0 0 0) ["a.png"] _)).
  vm_compute. reflexivity.
Defined.

Lemma X6_witness :
  exists t o',
    parse_args_loop "1.0" "imv" [got "i" ""] g_options = (t, Ok o')
    /\ forall r rs2,
         stops r = true ->
         parse_args_loop "1.0" "imv" ([got "i" ""] ++ r :: rs2) g_options
         = if Ascii.eqb (g_o r) "h"
           then (t ++ trace (print_usage "1.0" "imv"), Exit 0)
           else (t ++ [EStderr (unknown_argument (g_optopt r))], Exit 1).
Proof.
  apply (X6_parse_args_stops_at_first_h_or_unknown
           "1.0" "imv" [got "i" ""] g_options).
  constructor; [reflexivity | constructor].
Defined.

Lemma X9_witness :
  1 = 0
  \/ (1 = 1
      /\ ((exists t0 s,
             trace (main "1.0" Sample.list_files Sample.decode Sample.play
                      Sample.zoom Sample.init_viewport ["imv"; "a.png"] ""
                      Sample.pf [Sample.env])
             = t0 ++ [EStderr s])
          \/ ((List.length ["imv"; "a.png"] < 2)%nat
              /\ trace (main "1.0" Sample.list_files Sample.decode Sample.play
                          Sample.zoom Sample.init_viewport ["imv"; "a.png"] ""
                          Sample.pf [Sample.env])
                 = trace (print_usage "1.0"
                            (C.fmt_str (hd_error ["imv"; "a.png"])))))).
Proof.
  apply (X9_exit_status_is_0_or_1 "1.0" Sample.list_files Sample.decode
           Sample.play Sample.zoom Sample.init_viewport ["imv"; "a.png"] ""
           Sample.pf [Sample.env] 1).
  unfold main, main_startup. rewrite sample_texture.
  vm_compute. reflexivity.
Defined.

Lemma X10_witness :
  read_stdin Sample.list_files ("a.png" ++ C.nl ++ C.nl ++ "b.png")%string
    g_options imv_init_navigator
  = ret (mk_navigator ["a.png"; "b.png"] 0 true)
  /\ Forall stdin_path ["a.png"; "b.png"].
Proof.
  destruct (X10_stdin_paths_fit_the_buffer Sample.list_files
              ("a.png" ++ C.nl ++ C.nl ++ "b.png")%string
              g_options imv_init_navigator eq_refl) as (H1 & _ & H3).
  split; [exact H1 | exact H3].
Defined.

Lemma X11_witness :
  read_stdin Sample.list_files
    (text_of ["a.png"] ++ String zero "b.png")%string
    g_options imv_init_navigator
  = ([], Undefined).
Proof.
  apply (X11_nul_at_line_start_is_undefined Sample.list_files
           ["a.png"] "b.png" g_options imv_init_navigator).
  constructor; [split; [reflexivity | cbn; lia] | constructor].
Defined.

Lemma X12_witness :
  main_loop Sample.decode Sample.play Sample.zoom
    [mk_frame_env [SDL_KEYDOWN SDLK_h; SDL_QUIT; SDL_KEYDOWN SDLK_x]
       1010 1011 1280 720]
    Sample.st
  = ([], Exit 0).
Proof.
  refine (proj2 (proj2 (X12_quit_ends_the_run Sample.decode Sample.play
                          Sample.zoom
                          (mk_frame_env
                             [SDL_KEYDOWN SDLK_h; SDL_QUIT; SDL_KEYDOWN SDLK_x]
                             1010 1011 1280 720)
                          [] Sample.st [SDL_KEYDOWN SDLK_h] SDL_QUIT
                          [SDL_KEYDOWN SDLK_x] []
                          (with_view Sample.st
                             (imv_viewport_move (st_view Sample.st) 50 0))
                          _ _ _)));
    reflexivity.
Defined.

Lemma X13_witness :
  main "1.0" Sample.list_files Sample.decode Sample.play Sample.zoom
    Sample.init_viewport ["imv"; "a.png"; "-r"] "" Sample.pf [Sample.env]
  = main "1.0" Sample.list_files Sample.decode Sample.play Sample.zoom
      Sample.init_viewport ["imv"; "-r"; "a.png"] "" Sample.pf [Sample.env].
Proof.
  apply (X13_options_may_follow_operands "1.0" Sample.list_files
           Sample.decode Sample.play Sample.zoom Sample.init_viewport
           "imv" "a.png" "-r" [] "" Sample.pf [Sample.env]).
  - split; [reflexivity | discriminate].
  - reflexivity.
  - discriminate.
  - reflexivity.
Defined.

Lemma X14_witness :
  main "1.0" Sample.list_files Sample.decode Sample.play Sample.zoom
    Sample.init_viewport ["imv"; "-f"; "b.png"] "a.png" Sample.pf [Sample.env]
  = main "1.0" Sample.list_files Sample.decode Sample.play Sample.zoom
      Sample.init_viewport ["imv"; "-f"; "b.png"] "" Sample.pf [Sample.env].
Proof.
  apply (X14_stdin_is_read_only_on_request "1.0" Sample.list_files
           Sample.decode Sample.play Sample.zoom Sample.init_viewport
           ["imv"; "-f"; "b.png"] "a.png" "" Sample.pf [Sample.env]).
  - constructor; [discriminate | constructor].
  - cbn. intros [H|[]]. discriminate.
Defined.
